(** * A vehicle-routing model and its distance score

    Shallow embedding of [src/main.py]: the [Location], [Vehicle] and
    [RoutingPlan] data classes, [Location.distance_to],
    [Vehicle.total_distance], the constraint provider [vrp_constraints]
    and the problem generator [generate_problem]. *)

From Stdlib Require Import ZArith Lia Bool List.
From Stdlib Require Import Floats.SpecFloat.
From stdpp Require Import base option list gmap strings pretty.

Local Open Scope Z_scope.

(** ** Exceptions and results *)

(** The Python exceptions the modelled code can raise. *)
Inductive PyExc : Type :=
| KeyError (key : Z)
| IndexError
| ValueError
| OverflowError.

(** A computation either returns a value or raises. *)
Inductive res (A : Type) : Type :=
| Ok (a : A)
| Raise (e : PyExc).
Arguments Ok {A} a.
Arguments Raise {A} e.

#[global] Instance res_ret : MRet res := fun A a => Ok a.
#[global] Instance res_bind : MBind res := fun A B f m =>
  match m with
  | Ok a => f a
  | Raise e => Raise e
  end.

(** [for x in xs: acc = f(acc, x)], stopping at the first exception. *)
Fixpoint res_fold {A B : Type} (f : A -> B -> res A) (acc : A) (xs : list B)
  : res A :=
  match xs with
  | [] => Ok acc
  | x :: xs' => acc' ← f acc x; res_fold f acc' xs'
  end.

(** [[f(x) for x in xs]], stopping at the first exception. *)
Fixpoint res_map {A B : Type} (f : A -> res B) (xs : list A) : res (list B) :=
  match xs with
  | [] => Ok []
  | x :: xs' => y ← f x; ys ← res_map f xs'; Ok (y :: ys)
  end.

(** [d[k]] on a dict with integer keys. *)
Definition dict_get (d : gmap Z Z) (k : Z) : res Z :=
  match d !! k with
  | Some v => Ok v
  | None => Raise (KeyError k)
  end.

(** [seq[i]] on a list: a negative index counts from the end. *)
Definition list_get {A : Type} (seq : list A) (i : Z) : res A :=
  let j := if i <? 0 then i + Z.of_nat (length seq) else i in
  if j <? 0 then Raise IndexError
  else match seq !! Z.to_nat j with
       | Some x => Ok x
       | None => Raise IndexError
       end.

(** [range(n)]. *)
Definition range (n : Z) : list Z := map Z.of_nat (seq 0 (Z.to_nat n)).

(** [sum(xs)] on integers. *)
Definition Zsum (xs : list Z) : Z := foldr Z.add 0 xs.

(** ** Binary64 arithmetic of [distance_to]

    Python's [float] is IEEE 754 binary64; its values are the
    [spec_float]s of precision 53 and maximal exponent 1024. *)
Module Float64.

Definition prec : Z := 53.
Definition emax : Z := 1024.

(** Conversion of a Python [int] to [float]: correctly rounded (to nearest,
    ties to even); [OverflowError] when the rounded value is not finite. *)
Definition of_int (n : Z) : res spec_float :=
  match binary_normalize prec emax n 0 false with
  | S754_infinity _ => Raise OverflowError
  | x => Ok x
  end.

(** The float [100.0]: in [x * 100] the literal [100] is converted. *)
Definition hundred : spec_float :=
  Eval vm_compute in binary_normalize prec emax 100 0 false.

Definition mul (x y : spec_float) : spec_float := SFmul prec emax x y.

(** [x ** 0.5] on a float, that is the C library's [pow(x, 0.5)], taken to
    be the correctly rounded binary64 square root. *)
Definition pow_half (x : spec_float) : spec_float := SFsqrt prec emax x.

(** [m / 2^k] rounded to the nearest integer, ties to the even one. *)
Definition shift_round_half_even (m : Z) (k : positive) : Z :=
  let q := m / 2 ^ Zpos k in
  let r := m mod 2 ^ Zpos k in
  let h := 2 ^ (Zpos k - 1) in
  if r <? h then q
  else if h <? r then q + 1
  else if Z.even q then q else q + 1.

(** [round(x)] with one argument: the nearest integer, ties to even;
    [OverflowError] on an infinity and [ValueError] on a NaN. *)
Definition round (x : spec_float) : res Z :=
  match x with
  | S754_zero _ => Ok 0
  | S754_infinity _ => Raise OverflowError
  | S754_nan => Raise ValueError
  | S754_finite s m e =>
      Ok (cond_Zopp s
            match e with
            | Z0 => Zpos m
            | Zpos _ => Zpos m * 2 ^ e
            | Zneg k => shift_round_half_even (Zpos m) k
            end)
  end.

End Float64.

(** ** The data classes *)

(** [class Location].  The fields are annotated [float] in the source, but
    every [Location] of the program is built in [generate_problem] from
    [random.randint] values, which are Python [int]s; coordinates are
    therefore integers here, so that the differences, squares and their sum
    in [distance_to] are exact and only [** 0.5], [* 100] and [round] are
    binary64 operations. *)
Record Location : Type := mkLocation {
  id : Z;
  latitude : Z;
  longitude : Z;
  distance_dict : gmap Z Z
}.

(** [Location.distance_to]:
    [round(((self.latitude - other.latitude)**2
            + (self.longitude - other.longitude)**2)**0.5 * 100)]. *)
Definition distance_to (self other : Location) : res Z :=
  x ← Float64.of_int ((latitude self - latitude other) ^ 2
                       + (longitude self - longitude other) ^ 2);
  Float64.round (Float64.mul (Float64.pow_half x) Float64.hundred).

(** [class Vehicle]: a start [Location] and the list variable [visits]. *)
Record Vehicle : Type := mkVehicle {
  start_location : Location;
  visits : list Location
}.

(** One turn of the loop of [total_distance], on the pair
    [(previous, total)]:
    [total += previous.distance_dict[visit.id]; previous = visit]. *)
Definition total_distance_step (acc : Location * Z) (visit : Location)
  : res (Location * Z) :=
  let '(previous, total) := acc in
  d ← dict_get (distance_dict previous) (id visit);
  Ok (visit, total + d).

(** [Vehicle.total_distance]. *)
Definition total_distance (self : Vehicle) : res Z :=
  '(previous, total) ← res_fold total_distance_step
                          (start_location self, 0) (visits self);
  d ← dict_get (distance_dict previous) (id (start_location self));
  Ok (total + d).

(** [class RoutingPlan]: the vehicles, the value range of the list variable
    (named [visits] in the source, as the field of [Vehicle]) and the score,
    a [SimpleScore], that is one integer, or [None]. *)
Record RoutingPlan : Type := mkRoutingPlan {
  vehicles : list Vehicle;
  plan_visits : list Location;
  score : option Z
}.

(** The constructor the [@dataclass] decorator generates for
    [RoutingPlan(vehicles, visits)]: it stores its arguments and the default
    [score = None]. *)
Definition RoutingPlan_init (vehicles0 : list Vehicle)
    (visits0 : list Location) : res RoutingPlan :=
  Ok (mkRoutingPlan vehicles0 visits0 None).

(** ** The score *)

(** A constraint gives a plan its score, unless the weigher raises. *)
Definition Constraint : Type := RoutingPlan -> res Z.

(** Modelled from the spec: the constraint stream
    [cf.for_each(Vehicle).penalize(weight, weigher)] of the solver library,
    which is not part of the source.  As section 4.2 has it, every
    [Vehicle] of the plan is matched and the score is the negated sum of the
    matches' weights, each multiplied by the constraint weight. *)
Definition for_each_Vehicle_penalize (weight : Z)
    (weigher : Vehicle -> res Z) : Constraint :=
  fun plan =>
    res_fold (fun total vehicle =>
                w ← weigher vehicle; Ok (total - weight * w))
             0 (vehicles plan).

(** [SimpleScore.ONE]. *)
Definition SimpleScore_ONE : Z := 1.

(** [vrp_constraints]: the one constraint 'Minimize distance'. *)
Definition vrp_constraints : list Constraint :=
  [ for_each_Vehicle_penalize SimpleScore_ONE total_distance ].

(** Modelled from the spec: the score of a plan is the sum of the scores of
    the registered constraints (section 6, scoring-rule interface). *)
Definition full_score (plan : RoutingPlan) : res Z :=
  scores ← res_map (fun c : Constraint => c plan) vrp_constraints;
  Ok (Zsum scores).

(** ** The problem generator *)

(** The interface of [random.Random] that [generate_problem] uses: the
    seeded constructor and [_randbelow], on which [randint] and [choice]
    are built.  The generator's state is passed explicitly. *)
Class PyRandom (G : Type) : Type := {
  Random : Z -> G;
  randbelow : G -> Z -> Z * G
}.

(** The contract of [_randbelow(n)]: an integer in [[0, n)]. *)
Definition randbelow_in_range (G : Type) `{PyRandom G} : Prop :=
  forall (g : G) (n : Z), 0 < n -> 0 <= fst (randbelow g n) < n.

Section Generator.
Context {G : Type} `{PyRandom G}.

(** [random.randint(a, b)], that is [randrange(a, b + 1)]. *)
Definition randint (g : G) (a b : Z) : res (Z * G) :=
  if 0 <? b + 1 - a
  then let '(r, g') := randbelow g (b + 1 - a) in Ok (a + r, g')
  else Raise ValueError.

(** [random.choice(seq)]. *)
Definition choice {A : Type} (g : G) (seq : list A) : res (A * G) :=
  match seq with
  | [] => Raise IndexError
  | _ => let '(i, g') := randbelow g (Z.of_nat (length seq)) in
         x ← list_get seq i; Ok (x, g')
  end.

(** [[f(i) for i in xs]] where [f] draws from the generator. *)
Fixpoint rand_map {A B : Type} (f : G -> A -> res (B * G)) (g : G)
    (xs : list A) : res (list B * G) :=
  match xs with
  | [] => Ok ([], g)
  | x :: xs' =>
      '(y, g1) ← f g x;
      '(ys, g2) ← rand_map f g1 xs';
      Ok (y :: ys, g2)
  end.

(** [Location(i, random.randint(0, 100), random.randint(0, 100), {})]. *)
Definition new_location (g : G) (i : Z) : res (Location * G) :=
  '(lat, g1) ← randint g 0 100;
  '(lon, g2) ← randint g1 0 100;
  Ok (mkLocation i lat lon ∅, g2).

(** [Vehicle(random.choice(locations))]; [visits] defaults to a new empty
    list. *)
Definition new_vehicle (locations : list Location) (g : G) (i : Z)
  : res (Vehicle * G) :=
  '(start, g1) ← choice g locations;
  Ok (mkVehicle start [], g1).

End Generator.

(** The [Location] objects of [generate_problem] are mutated in place while
    their distances are filled in.  The list [locations] is the store: the
    object at index [k] is [locations !! k]. *)

(** [location.distance_dict[i] = d]. *)
Definition set_distance (location : Location) (i d : Z) : Location :=
  mkLocation (id location) (latitude location) (longitude location)
             (<[i := d]> (distance_dict location)).

(** The body of the inner loop, for the object at index [k]:
    [other = locations[i]]
    [location.distance_dict[i] = location.distance_to(other)]. *)
Definition fill_entry (k : nat) (locations : list Location) (i : Z)
  : res (list Location) :=
  location ← list_get locations (Z.of_nat k);
  other ← list_get locations i;
  d ← distance_to location other;
  Ok (<[k := set_distance location i d]> locations).

(** [for i in range(location_count): ...] for the object at index [k]. *)
Definition fill_location (location_count : Z) (locations : list Location)
    (k : nat) : res (list Location) :=
  res_fold (fill_entry k) locations (range location_count).

(** [for location in locations: ...]. *)
Definition fill_distances (location_count : Z) (locations : list Location)
  : res (list Location) :=
  res_fold (fill_location location_count) locations
           (seq 0 (length locations)).

(** [generate_problem], from the generator state [g] that [Random(0)]
    gives. *)
Definition generate_problem_from {G : Type} `{PyRandom G} (g : G)
  : res RoutingPlan :=
  let location_count := 100 in
  let vehicle_count := 4 in
  '(locations, g1) ← rand_map new_location g (range location_count);
  locations' ← fill_distances location_count locations;
  '(vehicles0, g2) ← rand_map (new_vehicle locations') g1
                       (range vehicle_count);
  RoutingPlan_init vehicles0 locations'.

(** [generate_problem()]. *)
Definition generate_problem {G : Type} `{PyRandom G} : res RoutingPlan :=
  generate_problem_from (Random 0).

(** ** The drawing script *)

(** The calls of the [turtle] module the script makes, with their
    arguments. *)
Inductive TurtleCmd : Type :=
| Colormode (cmode : Z)
| Setup (width height : Z)
| Title (titlestring : string)
| Teleport (x y : Z)
| Color (r g b : Z)
| Dot (size : Z)
| Pendown
| Goto (x y : Z)
| Penup
| Done.

(** What the drawing can raise: [AttributeError], or an exception of
    [random]. *)
Inductive DrawExc : Type :=
| AttributeError
| Raised (e : PyExc).

Section DrawingScript.
Context {G : Type} `{PyRandom G}.

(** The body of the inner loop:
    [turtle.goto(visit.latitude * scale - offset,
                 visit.longitude * scale - offset)]
    [turtle.dot(scale)]. *)
Definition draw_visit (scale offset : Z) (visit : Location)
  : list TurtleCmd :=
  [ Goto (latitude visit * scale - offset) (longitude visit * scale - offset);
    Dot scale ].

(** The body of the outer loop: the three draws of the color come first,
    then the calls for the vehicle. *)
Definition draw_vehicle (scale offset : Z) (g : G) (vehicle : Vehicle)
  : res (list TurtleCmd * G) :=
  '(r, g1) ← randint g 0 256;
  '(gr, g2) ← randint g1 0 256;
  '(b, g3) ← randint g2 0 256;
  let x := latitude (start_location vehicle) * scale - offset in
  let y := longitude (start_location vehicle) * scale - offset in
  Ok ([ Teleport x y; Color r gr b; Dot (3 * scale); Pendown ]
      ++ concat (draw_visit scale offset <$> visits vehicle)
      ++ [ Goto x y; Penup ],
      g3).

(** [for vehicle in solution.vehicles: ...]: the calls made, and the
    exception that ended the loop, if any. *)
Fixpoint draw_vehicles (scale offset : Z) (g : G) (vs : list Vehicle)
  : list TurtleCmd * option PyExc :=
  match vs with
  | [] => ([], None)
  | vehicle :: vs' =>
      match draw_vehicle scale offset g vehicle with
      | Raise e => ([], Some e)
      | Ok (cmds, g') =>
          let '(rest, r) := draw_vehicles scale offset g' vs' in
          (cmds ++ rest, r)
      end
  end.

(** The drawing script at the end of the module, for the [solution] the
    solver returned: the calls of [turtle] made, in order, and the
    exception that ended the script, if any.  [solution.score.score] raises
    [AttributeError] when the score is [None]. *)
Definition draw (solution : RoutingPlan)
  : list TurtleCmd * option DrawExc :=
  let random : G := Random 0 in
  let scale := 5 in
  let setup := [ Colormode 255; Setup (100 * scale) (100 * scale) ] in
  match score solution with
  | None => (setup, Some AttributeError)
  | Some points =>
      let title := [ Title ("Routing plan - Score " +:+ pretty points) ] in
      let offset := 50 * scale in
      let '(cmds, r) :=
        draw_vehicles scale offset random (vehicles solution) in
      match r with
      | Some e => (setup ++ title ++ cmds, Some (Raised e))
      | None => (setup ++ title ++ cmds ++ [ Done ], None)
      end
  end.

End DrawingScript.

(** ** Moves and incremental scoring *)

(** Modelled from the spec: the moves of section 4.3, which the source
    leaves to the solver library.  A move holds indices only: vehicles are
    named by their index in the plan and visits by their position in a
    vehicle's list. *)
Inductive Move : Type :=
| Relocate (from_vehicle from_position to_vehicle to_position : nat)
| Swap (vehicle1 position1 vehicle2 position2 : nat)
| SegmentReverse (vehicle first last : nat).

(** A vehicle with another visit list. *)
Definition with_visits (v : Vehicle) (route : list Location) : Vehicle :=
  mkVehicle (start_location v) route.

(** [route] with [x] put in at position [p]. *)
Definition insert_at {A : Type} (p : nat) (x : A) (route : list A) : list A :=
  take p route ++ x :: drop p route.

(** [route] with the positions [first .. last] in reverse order. *)
Definition reverse_segment {A : Type} (first last : nat) (route : list A)
  : list A :=
  take first route
  ++ reverse (take (S last - first) (drop first route))
  ++ drop (S last) route.

(** Modelled from the spec: the application of a move (sections 4.3 and
    7).  Relocate takes the visit out of its vehicle and position and puts
    it in at the target position of the target vehicle, the same or another
    one; Swap exchanges the visits at two places; SegmentReverse reverses a
    contiguous part of one vehicle's list.  A move that names a vehicle or
    position that does not exist, or that moves nothing, is not legal and
    has no result. *)
Definition apply_to_vehicles (vs : list Vehicle) (m : Move)
  : option (list Vehicle) :=
  match m with
  | Relocate v1 p1 v2 p2 =>
      a ← vs !! v1;
      x ← visits a !! p1;
      let vs1 := <[v1 := with_visits a (delete p1 (visits a))]> vs in
      b ← vs1 !! v2;
      if decide (p2 <= length (visits b) /\ (v1, p1) <> (v2, p2))%nat
      then Some (<[v2 := with_visits b (insert_at p2 x (visits b))]> vs1)
      else None
  | Swap v1 p1 v2 p2 =>
      a ← vs !! v1;
      x ← visits a !! p1;
      b ← vs !! v2;
      y ← visits b !! p2;
      let vs1 := <[v1 := with_visits a (<[p1 := y]> (visits a))]> vs in
      b1 ← vs1 !! v2;
      if decide ((v1, p1) <> (v2, p2))
      then Some (<[v2 := with_visits b1 (<[p2 := x]> (visits b1))]> vs1)
      else None
  | SegmentReverse v first last =>
      a ← vs !! v;
      if decide (first < last < length (visits a))%nat
      then Some (<[v := with_visits a
                          (reverse_segment first last (visits a))]> vs)
      else None
  end.

(** Modelled from the spec: [apply(solution, move)] of section 4.2, on a
    solution; the value range and the score field are left as they are. *)
Definition apply_move (solution : RoutingPlan) (m : Move)
  : option RoutingPlan :=
  vs ← apply_to_vehicles (vehicles solution) m;
  Some (mkRoutingPlan vs (plan_visits solution) (score solution)).

(** Modelled from the spec: a move is legal when it can be applied, that is
    when it is in range and moves something (sections 4.3 and 7). *)
Definition legal (solution : RoutingPlan) (m : Move) : Prop :=
  is_Some (apply_move solution m).

(** Modelled from the spec: the vehicles a move touches, at most two
    (section 4.2). *)
Definition affected (m : Move) : list nat :=
  match m with
  | Relocate v1 _ v2 _ | Swap v1 _ v2 _ =>
      if decide (v1 = v2) then [v1] else [v1; v2]
  | SegmentReverse v _ _ => [v]
  end.

(** The route distance of the vehicle at index [i]. *)
Definition distance_at (vs : list Vehicle) (i : nat) : res Z :=
  match vs !! i with
  | Some v => total_distance v
  | None => Raise IndexError
  end.

(** Modelled from the spec: [delta_score(solution, move)] of section 4.2.
    It sums again the routes of the affected vehicles only, as they are and
    as the move would leave them, and leaves the solution as it is; the
    score being the negated distance, the change is old minus new. *)
Definition delta_score (solution : RoutingPlan) (m : Move) : res Z :=
  match apply_to_vehicles (vehicles solution) m with
  | None => Raise IndexError
  | Some vs' =>
      before ← res_map (distance_at (vehicles solution)) (affected m);
      after ← res_map (distance_at vs') (affected m);
      Ok (Zsum before - Zsum after)
  end.

(** * Specification *)

(** ** The travel cost *)

(** The squared euclidean distance of two locations. *)
Definition squared_distance (a b : Location) : Z :=
  (latitude a - latitude b) ^ 2 + (longitude a - longitude b) ^ 2.

(** [round(n ** 0.5 * 100)] for an integer [n]: what [distance_to] computes
    from the squared distance. *)
Definition scaled_root (n : Z) : res Z :=
  x ← Float64.of_int n;
  Float64.round (Float64.mul (Float64.pow_half x) Float64.hundred).



(** [d] is an integer nearest to [100 * sqrt n]: [|d - 100 sqrt n| <= 1/2],
    written on integers. *)
Definition nearest_to_scaled_root (n d : Z) : Prop :=
  0 <= d /\ 40000 * n <= (2 * d + 1) ^ 2
  /\ (d = 0 \/ (2 * d - 1) ^ 2 <= 40000 * n).

(** The same, decided. *)
Definition nearest_to_scaled_root_b (n d : Z) : bool :=
  (0 <=? d) && (40000 * n <=? (2 * d + 1) ^ 2)
  && ((d =? 0) || ((2 * d - 1) ^ 2 <=? 40000 * n)).

(** [scaled_root n] returns, and returns an integer nearest to
    [100 * sqrt n]. *)
Definition scaled_root_exact_b (n : Z) : bool :=
  match scaled_root n with
  | Ok d => nearest_to_scaled_root_b n d
  | Raise _ => false
  end.

(** Coordinates as [generate_problem] draws them. *)
Definition in_grid (a : Location) : Prop :=
  0 <= latitude a <= 100 /\ 0 <= longitude a <= 100.


(** ** Routes and their cost *)

(** The stops of a vehicle's route: its start location, each visit in list
    order, and the start location again. *)
Definition route_stops (v : Vehicle) : list Location :=
  start_location v :: visits v ++ [start_location v].

(** The edges of a route: the pairs of consecutive stops. *)
Fixpoint edges (stops : list Location) : list (Location * Location) :=
  match stops with
  | a :: (b :: _) as rest => (a, b) :: edges rest
  | _ => []
  end.

(** The cost of an edge, looked up in the distance mapping of its origin
    under the id of its destination. *)
Definition edge_cost (e : Location * Location) : res Z :=
  dict_get (distance_dict (fst e)) (id (snd e)).

(** The travel cost of a route: the sum of the costs of its edges. *)
Definition route_cost (v : Vehicle) : res Z :=
  costs ← res_map edge_cost (edges (route_stops v)); Ok (Zsum costs).

(** The negated sum of the route costs of every vehicle. *)
Definition negated_total_cost (plan : RoutingPlan) : res Z :=
  costs ← res_map route_cost (vehicles plan); Ok (- Zsum costs).

(** The vehicle starts at, and visits, locations of the list only. *)
Definition routed_over (locations : list Location) (v : Vehicle) : Prop :=
  start_location v ∈ locations /\ Forall (.∈ locations) (visits v).

(** Every entry a route over the list can look up is there. *)
Definition dicts_complete (locations : list Location) : Prop :=
  forall a b, a ∈ locations -> b ∈ locations ->
    is_Some (distance_dict a !! id b).

(** Every entry a route over the list can look up holds the value of
    [distance_to]: the distance index is the precomputed one. *)
Definition precomputed (locations : list Location) : Prop :=
  forall a b, a ∈ locations -> b ∈ locations ->
    exists d, distance_to a b = Ok d /\ distance_dict a !! id b = Some d.

(** An empty route whose start location maps its own id to the cost 0. *)
Definition empty_route_at_zero (v : Vehicle) : Prop :=
  visits v = []
  /\ distance_dict (start_location v) !! id (start_location v) = Some 0.

(** ** The generated plan *)

(** A location as the comprehension of [generate_problem] creates it. *)
Definition fresh_location (i : Z) (l : Location) : Prop :=
  id l = i /\ in_grid l /\ distance_dict l = ∅.

(** The same object at another moment: the id and the coordinates, which
    are never assigned, agree. *)
Definition same_frame (a b : Location) : Prop :=
  id a = id b /\ latitude a = latitude b /\ longitude a = longitude b.

(** The row of the object at index [k] of [locations0] holds, under the
    index of every object, the distance to that object. *)
Definition row_filled (locations0 : list Location) (k : nat)
    (l : Location) : Prop :=
  forall i, 0 <= i < Z.of_nat (length locations0) ->
    exists l0 o d, locations0 !! k = Some l0
                   /\ locations0 !! Z.to_nat i = Some o
                   /\ distance_to l0 o = Ok d
                   /\ distance_dict l !! i = Some d.

(** What [generate_problem] builds. *)
Record generated (plan : RoutingPlan) : Prop := {
  generated_locations : length (plan_visits plan) = 100%nat;
  generated_vehicles : length (vehicles plan) = 4%nat;
  generated_ids :
    forall k l, plan_visits plan !! k = Some l ->
                id l = Z.of_nat k /\ in_grid l;
  generated_index : precomputed (plan_visits plan);
  generated_starts :
    Forall (fun v => start_location v ∈ plan_visits plan /\ visits v = [])
           (vehicles plan);
  generated_score : score plan = None
}.

(** Two results of drawing computations agree: both raise the same
    exception, or both return the same value and leave their generators in
    states that agree. *)
Definition same_result {G1 G2 A : Type} (same : G1 -> G2 -> Prop)
    (r1 : res (A * G1)) (r2 : res (A * G2)) : Prop :=
  match r1, r2 with
  | Ok (a1, g1), Ok (a2, g2) => a1 = a2 /\ same g1 g2
  | Raise e1, Raise e2 => e1 = e2
  | _, _ => False
  end.

(** ** Example data *)

(** A linear congruential generator, as an instance of the interface of
    [random.Random]. *)
#[global] Instance lcg : PyRandom Z := {|
  Random seed := seed;
  randbelow g n := (g mod n, (1103515245 * g + 12345) mod 2 ^ 31)
|}.

(** A depot at the origin with the entry of its own id, as the generator
    fills it. *)
Definition depot (i : Z) : Location := mkLocation i 0 0 {[ i := 0 ]}.

(** Scenario C of section 8: three vehicles and no visit. *)
Definition three_idle_vehicles : RoutingPlan :=
  mkRoutingPlan [mkVehicle (depot 0) []; mkVehicle (depot 1) [];
                 mkVehicle (depot 2) []] [] None.

(** A location whose distance mapping is empty, and one whose mapping holds
    another value than the distance under its own id. *)
Definition bare_location : Location := mkLocation 0 0 0 ∅.
Definition odd_location : Location := mkLocation 0 0 0 {[ 0 := 7 ]}.



(** Three locations on a line with their precomputed index, two vehicles
    with one visit each, and the plan after the second vehicle's visit has
    moved to the end of the first vehicle's route. *)
Definition depot_O : Location :=
  mkLocation 0 0 0 {[ 0 := 0; 1 := 500; 2 := 1000 ]}.
Definition stop_A : Location :=
  mkLocation 1 3 4 {[ 0 := 500; 1 := 0; 2 := 500 ]}.
Definition stop_B : Location :=
  mkLocation 2 6 8 {[ 0 := 1000; 1 := 500; 2 := 0 ]}.
Definition two_routes : RoutingPlan :=
  mkRoutingPlan [mkVehicle depot_O [stop_A]; mkVehicle depot_O [stop_B]]
                [depot_O; stop_A; stop_B] None.
Definition one_route : RoutingPlan :=
  mkRoutingPlan [mkVehicle depot_O [stop_A; stop_B]; mkVehicle depot_O []]
                [depot_O; stop_A; stop_B] None.

(** ** Places, edges and pictures *)

(** The two locations are at the same place. *)
Definition same_place (a b : Location) : Prop :=
  latitude a = latitude b /\ longitude a = longitude b.

(** The entry an edge looks up. *)
Definition edge_entry (e : Location * Location) : option Z :=
  distance_dict (fst e) !! id (snd e).

(** The stop before a visit put in after the visits [l1], and the stop
    after it, before the visits [l2]. *)
Definition stop_before (start : Location) (l1 : list Location) : Location :=
  List.last l1 start.
Definition stop_after (start : Location) (l2 : list Location) : Location :=
  hd start l2.

(** The keys of the distance mapping are indices below [n]. *)
Definition keys_below (n : Z) (l : Location) : Prop :=
  forall i, is_Some (distance_dict l !! i) -> 0 <= i < n.

(** A point of the window. *)
Definition Point : Type := Z * Z.

(** The lines of a picture, for a turtle at [pos] with its pen down or up:
    [goto] draws a line from where the turtle is when the pen is down, and
    [teleport] moves the turtle and draws nothing. *)
Fixpoint lines_from (pos : Point) (pen : bool) (cmds : list TurtleCmd)
  : list (Point * Point) :=
  match cmds with
  | [] => []
  | Goto x y :: rest =>
      (if pen then [(pos, (x, y))] else []) ++ lines_from (x, y) pen rest
  | Teleport x y :: rest => lines_from (x, y) pen rest
  | Pendown :: rest => lines_from pos true rest
  | Penup :: rest => lines_from pos false rest
  | _ :: rest => lines_from pos pen rest
  end.

(** The dots of a picture: [dot] marks the place where the turtle is. *)
Fixpoint dots_from (pos : Point) (cmds : list TurtleCmd)
  : list (Point * Z) :=
  match cmds with
  | [] => []
  | Goto x y :: rest | Teleport x y :: rest => dots_from (x, y) rest
  | Dot size :: rest => (pos, size) :: dots_from pos rest
  | _ :: rest => dots_from pos rest
  end.

(** The picture of a script: the turtle starts at the origin with its pen
    down. *)
Definition lines (cmds : list TurtleCmd) : list (Point * Point) :=
  lines_from (0, 0) true cmds.
Definition dots (cmds : list TurtleCmd) : list (Point * Z) :=
  dots_from (0, 0) cmds.

(** The place of a location in the window. *)
Definition on_screen (l : Location) : Point :=
  (latitude l * 5 - 250, longitude l * 5 - 250).

(** The legs of a route and its marks, in the window. *)
Definition route_lines (v : Vehicle) : list (Point * Point) :=
  (fun e => (on_screen (fst e), on_screen (snd e))) <$> edges (route_stops v).
Definition route_dots (v : Vehicle) : list (Point * Z) :=
  (on_screen (start_location v), 15)
  :: ((fun x => (on_screen x, 5)) <$> visits v).

(** The calls for one vehicle, with the color drawn. *)
Definition vehicle_calls (v : Vehicle) (c : Z * Z * Z) : list TurtleCmd :=
  [ Teleport (latitude (start_location v) * 5 - 250)
             (longitude (start_location v) * 5 - 250);
    Color (fst (fst c)) (snd (fst c)) (snd c); Dot 15; Pendown ]
  ++ concat (draw_visit 5 250 <$> visits v)
  ++ [ Goto (latitude (start_location v) * 5 - 250)
            (longitude (start_location v) * 5 - 250); Penup ].

(** A generator that always draws the largest value. *)
#[global] Instance largest_draw : PyRandom unit := {|
  Random seed := tt;
  randbelow g n := (n - 1, g)
|}.

(** Within the window of [turtle.setup(500, 500)]. *)
Definition in_window (p : Point) : Prop :=
  -250 <= fst p <= 250 /\ -250 <= snd p <= 250.

(** The two routes of [two_routes], solved. *)
Definition two_routes_solved : RoutingPlan :=
  mkRoutingPlan (vehicles two_routes) (plan_visits two_routes) (Some (-3000)).

(** * Properties *)

(** ** The result monad *)


(** ** Signs in binary64 arithmetic *)






(** ** The cost as a function of the squared distance *)

Lemma distance_to_scaled_root (a b : Location) :
  distance_to a b = scaled_root (squared_distance a b).
Proof. reflexivity. Qed.

Lemma squared_distance_sym (a b : Location) :
  squared_distance a b = squared_distance b a.
Proof. unfold squared_distance. ring. Qed.


Lemma nearest_to_scaled_root_b_spec (n d : Z) :
  nearest_to_scaled_root_b n d = true -> nearest_to_scaled_root n d.
Proof.
  unfold nearest_to_scaled_root_b, nearest_to_scaled_root.
  rewrite !andb_true_iff, orb_true_iff. lia.
Qed.

Lemma scaled_root_exact_upto :
  forallb scaled_root_exact_b (range 20001) = true.
Proof. vm_compute. reflexivity. Qed.

Lemma elem_of_range (n i : Z) : 0 <= i < n -> i ∈ range n.
Proof.
  intros Hi. unfold range. apply list_elem_of_fmap.
  exists (Z.to_nat i). split; [lia|].
  apply list_elem_of_In, in_seq. lia.
Qed.

Lemma scaled_root_exact (n : Z) :
  0 <= n <= 20000 ->
  exists d, scaled_root n = Ok d /\ nearest_to_scaled_root n d.
Proof.
  intros Hn. pose proof scaled_root_exact_upto as Hall.
  rewrite forallb_forall in Hall.
  specialize (Hall n). unfold scaled_root_exact_b in Hall.
  destruct (scaled_root n) as [d|e].
  - exists d. split; [reflexivity|].
    apply nearest_to_scaled_root_b_spec, Hall, list_elem_of_In, elem_of_range.
    lia.
  - exfalso. enough (false = true) by discriminate.
    apply Hall, list_elem_of_In, elem_of_range. lia.
Qed.

Lemma squared_distance_grid (a b : Location) :
  in_grid a -> in_grid b -> 0 <= squared_distance a b <= 20000.
Proof. unfold in_grid, squared_distance. nia. Qed.

(** ** The travel cost *)



(** C3: [distance_to] is symmetric in its two locations: both calls raise
    the same exception or return the same integer. *)
Theorem distance_to_symmetric (a b : Location) :
  distance_to a b = distance_to b a.
Proof.
  rewrite !distance_to_scaled_root.
  f_equal. apply squared_distance_sym.
Qed.


(** The distance of a location to itself is zero. *)
Lemma distance_to_self (a : Location) : distance_to a a = Ok 0.
Proof.
  rewrite distance_to_scaled_root. unfold squared_distance.
  rewrite !Z.sub_diag. reflexivity.
Qed.

(** On the generator's grid [distance_to] returns. *)
Lemma distance_to_grid (a b : Location) :
  in_grid a -> in_grid b -> exists d, distance_to a b = Ok d /\ 0 <= d.
Proof.
  intros Ha Hb.
  destruct (scaled_root_exact (squared_distance a b)) as (d & Hd & Hn).
  { apply squared_distance_grid; assumption. }
  exists d. split; [exact Hd | apply Hn].
Qed.

(** ** The score as a sum over routes *)

Lemma edges_cons (a b : Location) (rest : list Location) :
  edges (a :: b :: rest) = (a, b) :: edges (b :: rest).
Proof. reflexivity. Qed.

(** The loop of [total_distance], from any [previous] and [total]. *)
Lemma total_distance_loop (start previous : Location) (total : Z)
    (vs : list Location) :
  ('(p, t) ← res_fold total_distance_step (previous, total) vs;
   d ← dict_get (distance_dict p) (id start); Ok (t + d))
  = (costs ← res_map edge_cost (edges (previous :: vs ++ [start]));
     Ok (total + Zsum costs)).
Proof.
  revert previous total.
  induction vs as [|v vs IH]; intros previous total.
  - simpl. unfold edge_cost. simpl.
    destruct (dict_get _ _) as [d|e]; simpl; [f_equal; lia | reflexivity].
  - rewrite <- app_comm_cons, edges_cons.
    cbn [res_fold res_map total_distance_step].
    change (edge_cost (previous, v))
      with (dict_get (distance_dict previous) (id v)).
    destruct (dict_get (distance_dict previous) (id v)) as [d|e];
      [|reflexivity].
    cbn [mbind res_bind]. rewrite IH.
    destruct (res_map edge_cost _) as [costs|e]; simpl;
      [f_equal; lia | reflexivity].
Qed.

Lemma total_distance_route_cost (v : Vehicle) :
  total_distance v = route_cost v.
Proof.
  unfold total_distance, route_cost, route_stops.
  rewrite total_distance_loop.
  destruct (res_map edge_cost _) as [costs|e]; reflexivity.
Qed.

(** The penalty accumulated over the vehicles, from any running total. *)
Lemma penalize_loop (weight : Z) (weigher : Vehicle -> res Z) (acc : Z)
    (vs : list Vehicle) :
  res_fold (fun total vehicle => w ← weigher vehicle; Ok (total - weight * w))
           acc vs
  = (ws ← res_map weigher vs; Ok (acc - weight * Zsum ws)).
Proof.
  revert acc. induction vs as [|v vs IH]; intros acc.
  - simpl. f_equal. lia.
  - cbn [res_fold res_map]. destruct (weigher v) as [w|e]; [|reflexivity].
    cbn [mbind res_bind]. rewrite IH.
    destruct (res_map weigher vs) as [ws|e]; simpl;
      [f_equal; lia | reflexivity].
Qed.

Lemma res_map_ext {A B : Type} (f g : A -> res B) (xs : list A) :
  (forall x, f x = g x) -> res_map f xs = res_map g xs.
Proof.
  intros Hfg. induction xs as [|x xs IH]; simpl; [reflexivity|].
  rewrite Hfg, IH. reflexivity.
Qed.

(** The score in terms of [total_distance]. *)
Lemma full_score_total_distance (plan : RoutingPlan) :
  full_score plan
  = (ws ← res_map total_distance (vehicles plan); Ok (- Zsum ws)).
Proof.
  unfold full_score, vrp_constraints, for_each_Vehicle_penalize.
  cbn [res_map]. rewrite penalize_loop.
  destruct (res_map total_distance _) as [ws|e]; simpl;
    [f_equal; unfold SimpleScore_ONE; lia | reflexivity].
Qed.

(** C1: for every plan the full score is the negated sum, over every
    vehicle, of the cost of its route from the start location through each
    visit in list order and back to the start, each edge cost looked up in
    the distance mapping (and the score raises the first [KeyError] of these
    lookups when one fails). *)
Theorem full_score_is_negated_total_cost (plan : RoutingPlan) :
  full_score plan = negated_total_cost plan.
Proof.
  rewrite full_score_total_distance. unfold negated_total_cost.
  rewrite (res_map_ext total_distance route_cost);
    [reflexivity | apply total_distance_route_cost].
Qed.

(** ** Routes over a set of locations *)

Lemma res_map_Forall {A B : Type} (P : B -> Prop) (f : A -> res B)
    (xs : list A) :
  Forall (fun x => exists y, f x = Ok y /\ P y) xs ->
  exists ys, res_map f xs = Ok ys /\ Forall P ys.
Proof.
  induction 1 as [|x xs (y & Hy & HP) _ (ys & Hys & HPs)]; simpl.
  - exists []. split; [reflexivity | constructor].
  - exists (y :: ys). rewrite Hy, Hys. split; [reflexivity|].
    constructor; assumption.
Qed.


Lemma Zsum_zero (xs : list Z) : Forall (eq 0) xs -> Zsum xs = 0.
Proof. induction 1; simpl; lia. Qed.

(** Both ends of an edge are stops. *)
Lemma elem_of_edges (a b : Location) (stops : list Location) :
  (a, b) ∈ edges stops -> a ∈ stops /\ b ∈ stops.
Proof.
  induction stops as [|x [|y stops] IH]; simpl.
  - intros Hin. inversion Hin.
  - intros Hin. inversion Hin.
  - rewrite elem_of_cons. intros [[= -> ->]|Hin].
    + split; [left | right; left].
    + destruct (IH Hin). split; right; assumption.
Qed.

Lemma route_stops_over (locations : list Location) (v : Vehicle) :
  routed_over locations v -> Forall (.∈ locations) (route_stops v).
Proof.
  intros [Hs Hv]. unfold route_stops.
  constructor; [exact Hs|].
  apply Forall_app. split; [exact Hv | constructor; [exact Hs | constructor]].
Qed.

(** A route all of whose edges have a cost with property [P]. *)
Lemma route_cost_Forall (P : Z -> Prop) (locations : list Location)
    (v : Vehicle) :
  (forall a b, a ∈ locations -> b ∈ locations ->
     exists d, distance_dict a !! id b = Some d /\ P d) ->
  routed_over locations v ->
  exists costs, res_map edge_cost (edges (route_stops v)) = Ok costs
                /\ Forall P costs.
Proof.
  intros Hdict Hv. apply res_map_Forall.
  pose proof (route_stops_over _ _ Hv) as Hstops.
  rewrite Forall_forall in Hstops.
  apply Forall_forall. intros [a b] (Ha & Hb)%elem_of_edges.
  destruct (Hdict a b (Hstops _ Ha) (Hstops _ Hb)) as (d & Hd & HP).
  exists d. unfold edge_cost, dict_get. simpl. rewrite Hd. auto.
Qed.

Lemma precomputed_complete (locations : list Location) :
  precomputed locations -> dicts_complete locations.
Proof. intros Hp a b Ha Hb. destruct (Hp a b Ha Hb) as (d & _ & ->). eauto. Qed.

(** With complete dictionaries [total_distance] raises no [KeyError]. *)
Lemma total_distance_returns (locations : list Location) (v : Vehicle) :
  dicts_complete locations -> routed_over locations v ->
  exists d, total_distance v = Ok d.
Proof.
  intros Hc Hv. rewrite total_distance_route_cost. unfold route_cost.
  destruct (route_cost_Forall (fun _ => True) locations v) as (cs & -> & _);
    [| exact Hv | eauto].
  intros a b Ha Hb. destruct (Hc a b Ha Hb) as [d Hd]. eauto.
Qed.


(** The score of a plan whose vehicles all have a distance with [P]. *)
Lemma full_score_Forall (P : Z -> Prop) (plan : RoutingPlan) :
  Forall (fun v => exists d, total_distance v = Ok d /\ P d) (vehicles plan) ->
  exists ds, full_score plan = Ok (- Zsum ds) /\ Forall P ds.
Proof.
  intros Hall. rewrite full_score_total_distance.
  destruct (res_map_Forall P total_distance _ Hall) as (ds & -> & HP).
  exists ds. split; [reflexivity | exact HP].
Qed.

(** ** Empty routes *)

Lemma total_distance_empty (v : Vehicle) :
  visits v = [] ->
  total_distance v
  = dict_get (distance_dict (start_location v)) (id (start_location v)).
Proof.
  intros Hv. unfold total_distance. rewrite Hv. simpl.
  destruct (dict_get _ _); reflexivity.
Qed.

(** Vehicles with empty routes at such locations: every distance is 0, and
    so is the score. *)
Lemma idle_vehicles_score_zero (plan : RoutingPlan) :
  Forall empty_route_at_zero (vehicles plan) ->
  Forall (fun v => total_distance v = Ok 0) (vehicles plan)
  /\ full_score plan = Ok 0.
Proof.
  intros Hall.
  assert (Forall (fun v => total_distance v = Ok 0) (vehicles plan)) as Hzero.
  { eapply Forall_impl; [exact Hall|]. intros v [Hv Hd].
    rewrite (total_distance_empty v Hv). unfold dict_get. rewrite Hd.
    reflexivity. }
  split; [exact Hzero|].
  assert (Forall (fun v => exists d, total_distance v = Ok d /\ 0 = d)
                 (vehicles plan)) as Hex.
  { eapply Forall_impl; [exact Hzero|]. intros v Hv.
    exists 0. split; [exact Hv | reflexivity]. }
  destruct (full_score_Forall (eq 0) plan Hex) as (ds & -> & Hds).
  rewrite (Zsum_zero ds Hds). reflexivity.
Qed.

(** C5, amended: a vehicle whose visit list is empty and whose start
    location maps its own id to 0 in its distance mapping (the value
    [distance_to] gives, which [generate_problem] stores) has the route
    distance 0, and a plan of such vehicles, however many, has the full
    score 0. *)
Theorem empty_routes_score_zero (plan : RoutingPlan) :
  Forall empty_route_at_zero (vehicles plan) ->
  Forall (fun v => total_distance v = Ok 0) (vehicles plan)
  /\ full_score plan = Ok 0.
Proof.
  intros Hall. destruct (idle_vehicles_score_zero plan Hall) as [Hd Hs].
  split; [exact Hd | exact Hs].
Qed.

Lemma empty_routes_score_zero_witness :
  Forall (fun v => total_distance v = Ok 0) (vehicles three_idle_vehicles)
  /\ full_score three_idle_vehicles = Ok 0.
Proof.
  apply (empty_routes_score_zero three_idle_vehicles).
  repeat constructor.
Defined.

(** C5 as stated fails: a vehicle with no visit whose start location has no
    entry for its own id raises [KeyError], one with another entry has that
    entry as its distance, and the score of three idle vehicles follows. *)
Lemma empty_route_not_always_zero :
  visits (mkVehicle bare_location []) = []
  /\ total_distance (mkVehicle bare_location []) = Raise (KeyError 0)
  /\ total_distance (mkVehicle odd_location []) = Ok 7
  /\ full_score (mkRoutingPlan
                   [mkVehicle odd_location []; mkVehicle odd_location [];
                    mkVehicle odd_location []] [] None) = Ok (-21).
Proof. repeat split. Qed.

(** ** The sign of distances and scores *)





(** ** Lists as Python sequences *)

Lemma list_get_Ok {A : Type} (seq : list A) (i : Z) :
  0 <= i < Z.of_nat (length seq) ->
  exists x, list_get seq i = Ok x /\ seq !! Z.to_nat i = Some x.
Proof.
  intros Hi. unfold list_get.
  destruct (i <? 0) eqn:Hneg; [lia|]. rewrite Hneg.
  destruct (lookup_lt_is_Some_2 seq (Z.to_nat i)) as [x Hx]; [lia|].
  rewrite Hx. eauto.
Qed.

Lemma list_get_lookup {A : Type} (seq : list A) (k : nat) (x : A) :
  seq !! k = Some x -> list_get seq (Z.of_nat k) = Ok x.
Proof.
  intros Hx. destruct (list_get_Ok seq (Z.of_nat k)) as (y & -> & Hy).
  - apply lookup_lt_Some in Hx. lia.
  - rewrite Nat2Z.id in Hy. congruence.
Qed.

Lemma range_lookup (n : Z) (k : nat) :
  (k < Z.to_nat n)%nat -> range n !! k = Some (Z.of_nat k).
Proof.
  intros Hk. unfold range. rewrite list_lookup_fmap, lookup_seq_lt by lia.
  reflexivity.
Qed.

Lemma length_range (n : Z) : length (range n) = Z.to_nat n.
Proof. unfold range. rewrite length_map, length_seq. reflexivity. Qed.

Lemma elem_of_range_inv (n i : Z) : i ∈ range n -> 0 <= i < n.
Proof.
  unfold range. intros (k & -> & Hk%list_elem_of_In%in_seq)%list_elem_of_fmap.
  lia.
Qed.

(** ** Drawing from the generator *)

Section Drawing.
Context {G : Type} `{PyRandom G}.
Hypothesis randbelow_range : randbelow_in_range G.

Lemma randint_Ok (g : G) (a b : Z) :
  a <= b -> exists r g', randint g a b = Ok (r, g') /\ a <= r <= b.
Proof.
  intros Hab. unfold randint.
  destruct (0 <? b + 1 - a) eqn:Hw; [|lia].
  pose proof (randbelow_range g (b + 1 - a) ltac:(lia)) as Hr.
  destruct (randbelow g (b + 1 - a)) as [r g']. simpl in Hr.
  exists (a + r), g'. split; [reflexivity | lia].
Qed.

Lemma choice_Ok {A : Type} (g : G) (seq : list A) :
  seq <> [] -> exists x g', choice g seq = Ok (x, g') /\ x ∈ seq.
Proof.
  intros Hne. unfold choice. destruct seq as [|x0 seq']; [congruence|].
  set (seq := x0 :: seq').
  pose proof (randbelow_range g (Z.of_nat (length seq))
                ltac:(simpl; lia)) as Hr.
  destruct (randbelow g (Z.of_nat (length seq))) as [i g']. simpl in Hr.
  destruct (list_get_Ok seq i Hr) as (x & Hg & Hx). rewrite Hg. simpl.
  exists x, g'. split; [reflexivity|].
  eapply list_elem_of_lookup_2, Hx.
Qed.

Lemma rand_map_Forall2 {A B : Type} (P : A -> B -> Prop)
    (f : G -> A -> res (B * G)) (xs : list A) (g : G) :
  (forall g x, exists y g', f g x = Ok (y, g') /\ P x y) ->
  exists ys g', rand_map f g xs = Ok (ys, g') /\ Forall2 P xs ys.
Proof.
  intros Hf. revert g. induction xs as [|x xs IH]; intros g; simpl.
  - exists [], g. split; [reflexivity | constructor].
  - destruct (Hf g x) as (y & g1 & Hy & HP). rewrite Hy. simpl.
    destruct (IH g1) as (ys & g2 & Hys & HPs). rewrite Hys. simpl.
    exists (y :: ys), g2. split; [reflexivity | constructor; assumption].
Qed.

Lemma new_location_Ok (g : G) (i : Z) :
  exists l g', new_location g i = Ok (l, g') /\ fresh_location i l.
Proof.
  unfold new_location.
  destruct (randint_Ok g 0 100) as (lat & g1 & Hg & Hlat); [lia|].
  rewrite Hg. simpl.
  destruct (randint_Ok g1 0 100) as (lon & g2 & Hg1 & Hlon); [lia|].
  rewrite Hg1. simpl.
  eexists _, g2. split; [reflexivity|].
  repeat split; simpl; lia.
Qed.

Lemma new_vehicle_Ok (locations : list Location) (g : G) (i : Z) :
  locations <> [] ->
  exists v g', new_vehicle locations g i = Ok (v, g')
               /\ start_location v ∈ locations /\ visits v = [].
Proof.
  intros Hne. unfold new_vehicle.
  destruct (choice_Ok g locations Hne) as (x & g1 & Hc & Hx).
  rewrite Hc. simpl.
  eexists _, g1. split; [reflexivity|]. split; [exact Hx | reflexivity].
Qed.

End Drawing.

(** ** Filling the distance index *)

Lemma same_frame_refl (a : Location) : same_frame a a.
Proof. repeat split. Qed.

Lemma same_frame_set_distance (a b : Location) (i d : Z) :
  same_frame a b -> same_frame a (set_distance b i d).
Proof. intros Hab. exact Hab. Qed.

Lemma distance_to_same_frame (a a' b b' : Location) :
  same_frame a a' -> same_frame b b' -> distance_to a b = distance_to a' b'.
Proof.
  intros (_ & Hx & Hy) (_ & Hx' & Hy'). rewrite !distance_to_scaled_root.
  unfold squared_distance. rewrite Hx, Hy, Hx', Hy'. reflexivity.
Qed.

Lemma in_grid_same_frame (a b : Location) :
  same_frame a b -> in_grid a -> in_grid b.
Proof. intros (_ & Hx & Hy). unfold in_grid. rewrite Hx, Hy. tauto. Qed.

Section Fill.
Variable locations0 : list Location.
Hypothesis grid0 : Forall in_grid locations0.

(** The inner loop on the object at index [k], over any indices. *)
Lemma fill_entries (k : nat) (l0 : Location) (indices : list Z) :
  locations0 !! k = Some l0 ->
  (forall i, i ∈ indices -> 0 <= i < Z.of_nat (length locations0)) ->
  forall (locations : list Location) (lk : Location),
    Forall2 same_frame locations0 locations ->
    locations !! k = Some lk ->
    exists locations' lk',
      res_fold (fill_entry k) locations indices = Ok locations'
      /\ Forall2 same_frame locations0 locations'
      /\ locations' !! k = Some lk'
      /\ (forall j, j <> k -> locations' !! j = locations !! j)
      /\ (forall i, i ∈ indices ->
            exists o d, locations0 !! Z.to_nat i = Some o
                        /\ distance_to l0 o = Ok d
                        /\ distance_dict lk' !! i = Some d)
      /\ (forall i, i ∉ indices ->
            distance_dict lk' !! i = distance_dict lk !! i).
Proof.
  intros Hl0. induction indices as [|i indices IH];
    intros Hrange locations lk Hframe Hlk.
  - exists locations, lk. simpl. repeat split; try done.
    intros i Hi. inversion Hi.
  - pose proof (Forall2_length _ _ _ Hframe) as Hlen.
    assert (0 <= i < Z.of_nat (length locations)) as Hi.
    { rewrite <- Hlen. apply Hrange. left. }
    destruct (list_get_Ok locations i Hi) as (o & Hgo & Ho).
    destruct (Forall2_lookup_r _ _ _ _ _ Hframe Ho) as (o0 & Ho0 & Hoo).
    assert (same_frame l0 lk) as Hll.
    { exact (Forall2_lookup_lr _ _ _ _ _ _ Hframe Hl0 Hlk). }
    assert (in_grid l0) as Hg0 by exact (Forall_lookup_1 _ _ _ _ grid0 Hl0).
    assert (in_grid o0) as Hgo0 by exact (Forall_lookup_1 _ _ _ _ grid0 Ho0).
    destruct (distance_to_grid l0 o0 Hg0 Hgo0) as (d & Hd & _).
    assert (distance_to lk o = Ok d) as Hd'.
    { rewrite <- Hd. symmetry. apply distance_to_same_frame; assumption. }
    set (lk1 := set_distance lk i d).
    set (locations1 := <[k := lk1]> locations).
    assert (fill_entry k locations i = Ok locations1) as Hstep.
    { unfold fill_entry. rewrite (list_get_lookup _ _ _ Hlk). simpl.
      rewrite Hgo. simpl. rewrite Hd'. reflexivity. }
    assert (Forall2 same_frame locations0 locations1) as Hframe1.
    { unfold locations1. rewrite <- (list_insert_id locations0 k l0 Hl0).
      apply Forall2_insert; [exact Hframe|].
      apply same_frame_set_distance, Hll. }
    assert (locations1 !! k = Some lk1) as Hlk1.
    { apply list_lookup_insert_eq. eapply lookup_lt_Some, Hlk. }
    destruct (IH (fun j Hj => Hrange j (list_elem_of_further _ _ _ Hj))
                locations1 lk1 Hframe1 Hlk1)
      as (locations' & lk' & Hfold & Hframe' & Hlk' & Hother & Hin & Hout).
    exists locations', lk'. cbn [res_fold]. rewrite Hstep. simpl.
    repeat split; try assumption.
    + intros j Hj. rewrite (Hother j Hj).
      apply list_lookup_insert_ne. congruence.
    + intros i' Hi'. destruct (decide (i' ∈ indices)) as [Hmem|Hmem].
      * apply Hin, Hmem.
      * apply elem_of_cons in Hi' as [->|Hi']; [|contradiction].
        exists o0, d. repeat split; try assumption.
        rewrite (Hout i Hmem). simpl. apply lookup_insert_eq.
    + intros i' Hi'. apply not_elem_of_cons in Hi' as [Hne Hi'].
      rewrite (Hout i' Hi'). simpl. apply lookup_insert_ne. congruence.
Qed.

(** One turn of the outer loop fills the row of the object at [k]. *)
Lemma fill_location_row (k : nat) (locations : list Location) :
  (k < length locations0)%nat ->
  Forall2 same_frame locations0 locations ->
  exists locations' lk',
    fill_location (Z.of_nat (length locations0)) locations k = Ok locations'
    /\ Forall2 same_frame locations0 locations'
    /\ locations' !! k = Some lk'
    /\ row_filled locations0 k lk'
    /\ (forall j, j <> k -> locations' !! j = locations !! j).
Proof.
  intros Hk Hframe.
  destruct (lookup_lt_is_Some_2 locations0 k Hk) as [l0 Hl0].
  destruct (Forall2_lookup_l _ _ _ _ _ Hframe Hl0) as (lk & Hlk & _).
  destruct (fill_entries k l0 (range (Z.of_nat (length locations0))) Hl0
              (elem_of_range_inv _) locations lk Hframe Hlk)
    as (locations' & lk' & Hfold & Hframe' & Hlk' & Hother & Hin & _).
  exists locations', lk'. repeat split; try assumption.
  intros i Hi.
  destruct (Hin i (elem_of_range _ _ Hi)) as (o & d & Ho & Hd & He).
  exists l0, o, d. repeat split; assumption.
Qed.

(** The outer loop over any indices keeps the filled rows filled and
    fills the rows it visits. *)
Lemma fill_rows (indices : list nat) :
  (forall k, k ∈ indices -> (k < length locations0)%nat) ->
  forall locations : list Location,
    Forall2 same_frame locations0 locations ->
    exists locations',
      res_fold (fill_location (Z.of_nat (length locations0)))
               locations indices = Ok locations'
      /\ Forall2 same_frame locations0 locations'
      /\ (forall k l, locations !! k = Some l -> row_filled locations0 k l ->
            exists l', locations' !! k = Some l'
                       /\ row_filled locations0 k l')
      /\ (forall k, k ∈ indices ->
            exists l', locations' !! k = Some l'
                       /\ row_filled locations0 k l').
Proof.
  induction indices as [|k indices IH]; intros Hrange locations Hframe.
  - exists locations. simpl. repeat split; try done.
    + intros k l Hl Hrow. eauto.
    + intros k Hk. inversion Hk.
  - destruct (fill_location_row k locations) as
      (locations1 & lk1 & Hstep & Hframe1 & Hlk1 & Hrow1 & Hother);
      [apply Hrange; left | exact Hframe |].
    destruct (IH (fun j Hj => Hrange j (list_elem_of_further _ _ _ Hj))
                locations1 Hframe1)
      as (locations' & Hfold & Hframe' & Hkeep & Hin).
    exists locations'. cbn [res_fold]. rewrite Hstep. simpl.
    repeat split; try assumption.
    + intros j l Hl Hrow. destruct (decide (j = k)) as [->|Hne].
      * apply (Hkeep k lk1 Hlk1 Hrow1).
      * apply (Hkeep j l); [|exact Hrow]. rewrite (Hother j Hne). exact Hl.
    + intros j Hj. apply elem_of_cons in Hj as [->|Hj].
      * apply (Hkeep k lk1 Hlk1 Hrow1).
      * apply Hin, Hj.
Qed.

(** [fill_distances] returns the same objects with every row filled. *)
Lemma fill_distances_Ok :
  exists locations',
    fill_distances (Z.of_nat (length locations0)) locations0 = Ok locations'
    /\ Forall2 same_frame locations0 locations'
    /\ (forall k l, locations' !! k = Some l -> row_filled locations0 k l).
Proof.
  destruct (fill_rows (seq 0 (length locations0)))
    with (locations := locations0)
    as (locations' & Hfold & Hframe & _ & Hin).
  - intros k Hk%list_elem_of_In%in_seq. lia.
  - apply Forall2_same_length_lookup_2; [reflexivity|].
    intros i x y Hx Hy. rewrite Hx in Hy. injection Hy as <-.
    apply same_frame_refl.
  - exists locations'. repeat split; try assumption.
    intros k l Hl.
    assert (k ∈ seq 0 (length locations0)) as Hk.
    { apply list_elem_of_In, in_seq. apply lookup_lt_Some in Hl.
      rewrite <- (Forall2_length _ _ _ Hframe) in Hl. lia. }
    destruct (Hin k Hk) as (l' & Hl' & Hrow).
    rewrite Hl in Hl'. injection Hl' as <-. exact Hrow.
Qed.

End Fill.

(** ** The generated plan *)

(** The filled rows of fresh locations are the precomputed index. *)
Lemma filled_precomputed (locations0 locations' : list Location) :
  Forall2 fresh_location (range (Z.of_nat (length locations0))) locations0 ->
  Forall2 same_frame locations0 locations' ->
  (forall k l, locations' !! k = Some l -> row_filled locations0 k l) ->
  precomputed locations'.
Proof.
  intros Hfresh Hframe Hrows a b Ha Hb.
  apply list_elem_of_lookup in Ha as [ka Ha].
  apply list_elem_of_lookup in Hb as [kb Hb].
  pose proof (Forall2_length _ _ _ Hframe) as Hlen.
  assert (kb < length locations0)%nat as Hkb.
  { rewrite Hlen. eapply lookup_lt_Some, Hb. }
  destruct (Hrows ka a Ha (Z.of_nat kb) ltac:(lia))
    as (l0 & o & d & Hl0 & Ho & Hd & Hentry).
  rewrite Nat2Z.id in Ho.
  pose proof (Forall2_lookup_lr _ _ _ _ _ _ Hframe Hl0 Ha) as Hfa.
  pose proof (Forall2_lookup_lr _ _ _ _ _ _ Hframe Ho Hb) as Hfb.
  assert (id b = Z.of_nat kb) as Hid.
  { destruct Hfb as (<- & _).
    assert (range (Z.of_nat (length locations0)) !! kb = Some (Z.of_nat kb))
      as Hr by (apply range_lookup; lia).
    destruct (Forall2_lookup_lr _ _ _ _ _ _ Hfresh Hr Ho) as (Hi & _).
    exact Hi. }
  exists d. split.
  - rewrite <- Hd. symmetry. apply distance_to_same_frame; assumption.
  - rewrite Hid. exact Hentry.
Qed.

Section Generated.
Context {G : Type} `{PyRandom G}.
Hypothesis randbelow_range : randbelow_in_range G.

Lemma generate_problem_from_Ok (g : G) :
  exists plan, generate_problem_from g = Ok plan /\ generated plan.
Proof.
  unfold generate_problem_from. cbv zeta.
  destruct (rand_map_Forall2 fresh_location new_location
              (range 100) g) as (locations0 & g1 & Hmap & Hfresh).
  { intros g0 i. apply new_location_Ok, randbelow_range. }
  rewrite Hmap. cbn [mbind res_bind].
  assert (length locations0 = 100%nat) as Hlen.
  { rewrite <- (Forall2_length _ _ _ Hfresh). reflexivity. }
  assert (Forall in_grid locations0) as Hgrid.
  { apply Forall_lookup_2. intros k l Hl.
    destruct (Forall2_lookup_r _ _ _ _ _ Hfresh Hl) as (i & _ & _ & Hg & _).
    exact Hg. }
  destruct (fill_distances_Ok locations0 Hgrid)
    as (locations' & Hfill & Hframe & Hrows).
  rewrite Hlen in Hfill. change (Z.of_nat 100) with 100 in Hfill.
  rewrite Hfill. cbn [mbind res_bind].
  assert (length locations' = 100%nat) as Hlen'.
  { rewrite <- (Forall2_length _ _ _ Hframe). exact Hlen. }
  destruct (rand_map_Forall2
              (fun (_ : Z) v => start_location v ∈ locations'
                                /\ visits v = [])
              (new_vehicle locations') (range 4) g1)
    as (vehicles0 & g2 & Hvs & Hstarts).
  { intros g0 i. apply new_vehicle_Ok; [exact randbelow_range|].
    intros ->. discriminate Hlen'. }
  rewrite Hvs. cbn [mbind res_bind].
  eexists. split; [reflexivity|].
  constructor; simpl.
  - exact Hlen'.
  - rewrite <- (Forall2_length _ _ _ Hstarts). reflexivity.
  - intros k l Hl.
    destruct (Forall2_lookup_r _ _ _ _ _ Hframe Hl) as (l0 & Hl0 & Hf).
    assert (range 100 !! k = Some (Z.of_nat k)) as Hr.
    { apply range_lookup. apply lookup_lt_Some in Hl0. lia. }
    destruct (Forall2_lookup_lr _ _ _ _ _ _ Hfresh Hr Hl0) as (Hi & Hg & _).
    split; [destruct Hf as (<- & _); exact Hi|].
    exact (in_grid_same_frame _ _ Hf Hg).
  - apply (filled_precomputed locations0); try assumption.
    rewrite Hlen. exact Hfresh.
  - clear Hvs. induction Hstarts; constructor; assumption.
  - reflexivity.
Qed.

Lemma generate_problem_Ok :
  exists plan, generate_problem = Ok plan /\ generated plan.
Proof. apply generate_problem_from_Ok. Qed.

End Generated.

(** Every plan of vehicles over generated locations can be scored, and the
    plan as generated, whose routes are empty, has the score 0. *)
Lemma generated_plan_score_zero (plan : RoutingPlan) :
  generated plan -> full_score plan = Ok 0.
Proof.
  intros Hgen. apply idle_vehicles_score_zero.
  eapply Forall_impl; [exact (generated_starts _ Hgen)|].
  intros v [Hs Hv]. split; [exact Hv|].
  destruct (generated_index _ Hgen _ _ Hs Hs) as (d & Hd & Hentry).
  rewrite distance_to_self in Hd. injection Hd as <-. exact Hentry.
Qed.

(** ** Two generators that draw the same values *)

Section SameDraws.
Context {G1 G2 : Type} {R1 : PyRandom G1} {R2 : PyRandom G2}.
Variable same : G1 -> G2 -> Prop.
Hypothesis same_draw :
  forall g1 g2 n, same g1 g2 ->
    fst (randbelow g1 n) = fst (randbelow g2 n)
    /\ same (snd (randbelow g1 n)) (snd (randbelow g2 n)).

Lemma randint_same (g1 : G1) (g2 : G2) (a b : Z) :
  same g1 g2 -> same_result same (randint g1 a b) (randint g2 a b).
Proof.
  intros Hg. unfold randint. destruct (0 <? b + 1 - a); [|reflexivity].
  destruct (same_draw g1 g2 (b + 1 - a) Hg) as [Hv Hs].
  destruct (randbelow g1 _) as [r1 g1'], (randbelow g2 _) as [r2 g2'].
  simpl in *. subst r2. split; [reflexivity | exact Hs].
Qed.

Lemma choice_same {A : Type} (g1 : G1) (g2 : G2) (seq : list A) :
  same g1 g2 -> same_result same (choice g1 seq) (choice g2 seq).
Proof.
  intros Hg. unfold choice. destruct seq as [|x0 seq']; [reflexivity|].
  set (seq := x0 :: seq').
  destruct (same_draw g1 g2 (Z.of_nat (length seq)) Hg) as [Hv Hs].
  destruct (randbelow g1 _) as [r1 g1'], (randbelow g2 _) as [r2 g2'].
  simpl in Hv, Hs. subst r2.
  destruct (list_get seq r1) as [x|e]; simpl; [split|]; done.
Qed.

Lemma rand_map_same {A B : Type} (f1 : G1 -> A -> res (B * G1))
    (f2 : G2 -> A -> res (B * G2)) (xs : list A) :
  (forall g1 g2 x, same g1 g2 -> same_result same (f1 g1 x) (f2 g2 x)) ->
  forall g1 g2, same g1 g2 ->
    same_result same (rand_map f1 g1 xs) (rand_map f2 g2 xs).
Proof.
  intros Hf. induction xs as [|x xs IH]; intros g1 g2 Hg; simpl.
  - split; [reflexivity | exact Hg].
  - pose proof (Hf g1 g2 x Hg) as Hx.
    destruct (f1 g1 x) as [[y1 g1']|e1], (f2 g2 x) as [[y2 g2']|e2];
      simpl in Hx |- *; try contradiction; [|exact Hx].
    destruct Hx as [<- Hg']. pose proof (IH g1' g2' Hg') as Hxs.
    destruct (rand_map f1 g1' xs) as [[ys1 g1'']|e1],
             (rand_map f2 g2' xs) as [[ys2 g2'']|e2];
      simpl in Hxs |- *; try contradiction; [|exact Hxs].
    destruct Hxs as [<- Hg'']. split; [reflexivity | exact Hg''].
Qed.

Lemma new_location_same (g1 : G1) (g2 : G2) (i : Z) :
  same g1 g2 -> same_result same (new_location g1 i) (new_location g2 i).
Proof.
  intros Hg. unfold new_location.
  pose proof (randint_same g1 g2 0 100 Hg) as Hlat.
  destruct (randint g1 0 100) as [[lat1 g1']|e1],
           (randint g2 0 100) as [[lat2 g2']|e2];
    simpl in Hlat |- *; try contradiction; [|exact Hlat].
  destruct Hlat as [<- Hg'].
  pose proof (randint_same g1' g2' 0 100 Hg') as Hlon.
  destruct (randint g1' 0 100) as [[lon1 g1'']|e1],
           (randint g2' 0 100) as [[lon2 g2'']|e2];
    simpl in Hlon |- *; try contradiction; [|exact Hlon].
  destruct Hlon as [<- Hg'']. split; [reflexivity | exact Hg''].
Qed.

Lemma new_vehicle_same (locations : list Location) (g1 : G1) (g2 : G2)
    (i : Z) :
  same g1 g2 ->
  same_result same (new_vehicle locations g1 i) (new_vehicle locations g2 i).
Proof.
  intros Hg. unfold new_vehicle.
  pose proof (choice_same g1 g2 locations Hg) as Hc.
  destruct (choice g1 locations) as [[x1 g1']|e1],
           (choice g2 locations) as [[x2 g2']|e2];
    simpl in Hc |- *; try contradiction; [|exact Hc].
  destruct Hc as [<- Hg']. split; [reflexivity | exact Hg'].
Qed.

(** The plan is a function of the values drawn: generators that draw the
    same values give the same plan, or raise the same exception. *)
Lemma generate_problem_from_same (g1 : G1) (g2 : G2) :
  same g1 g2 -> generate_problem_from g1 = generate_problem_from g2.
Proof.
  intros Hg. unfold generate_problem_from. cbv zeta.
  pose proof (rand_map_same new_location new_location (range 100)
                new_location_same g1 g2 Hg) as Hl.
  destruct (rand_map new_location g1 (range 100)) as [[ls1 g1']|e1],
           (rand_map new_location g2 (range 100)) as [[ls2 g2']|e2];
    simpl in Hl; try contradiction; [|subst; reflexivity].
  destruct Hl as [<- Hg']. cbn [mbind res_bind].
  destruct (fill_distances 100 ls1) as [ls'|e]; [|reflexivity].
  cbn [mbind res_bind].
  pose proof (rand_map_same (new_vehicle ls') (new_vehicle ls') (range 4)
                (new_vehicle_same ls') g1' g2' Hg') as Hv.
  destruct (rand_map (new_vehicle ls') g1' (range 4)) as [[vs1 g1'']|e1],
           (rand_map (new_vehicle ls') g2' (range 4)) as [[vs2 g2'']|e2];
    simpl in Hv; try contradiction; [|subst; reflexivity].
  destruct Hv as [<- _]. reflexivity.
Qed.

(** Two calls of [generate_problem], each on its own generator seeded
    with 0, return the same plan. *)
Lemma generate_problem_same_seed :
  same (Random 0) (Random 0) ->
  @generate_problem G1 R1 = @generate_problem G2 R2.
Proof. apply generate_problem_from_same. Qed.

End SameDraws.

(** ** Lookups and start locations in the generated plan *)

Lemma lcg_in_range : randbelow_in_range Z.
Proof. intros g n Hn. simpl. apply Z.mod_pos_bound, Hn. Qed.

(** C9: in the plan [generate_problem] returns, the distance mapping of
    every location has an entry under the id of every location of the plan,
    its own included; hence [total_distance] raises no [KeyError] and
    returns, whatever locations of the plan a vehicle starts at and visits,
    an empty route included. *)
Theorem generated_lookups_never_fail {G : Type} `{PyRandom G} :
  randbelow_in_range G ->
  exists plan,
    generate_problem = Ok plan
    /\ (forall a b, a ∈ plan_visits plan -> b ∈ plan_visits plan ->
          is_Some (distance_dict a !! id b))
    /\ (forall v, routed_over (plan_visits plan) v ->
          exists d, total_distance v = Ok d).
Proof.
  intros Hrange.
  destruct (generate_problem_Ok Hrange) as (plan & Hplan & Hgen).
  pose proof (precomputed_complete _ (generated_index _ Hgen)) as Hc.
  exists plan. split; [exact Hplan|]. split; [exact Hc|].
  intros v Hv. exact (total_distance_returns _ v Hc Hv).
Qed.

Lemma generated_lookups_never_fail_witness :
  exists plan,
    @generate_problem Z lcg = Ok plan
    /\ (forall a b, a ∈ plan_visits plan -> b ∈ plan_visits plan ->
          is_Some (distance_dict a !! id b))
    /\ (forall v, routed_over (plan_visits plan) v ->
          exists d, total_distance v = Ok d).
Proof. exact (@generated_lookups_never_fail Z lcg lcg_in_range). Defined.

(** C10: the plan [generate_problem] returns has exactly 100 locations and
    4 vehicles, and the start location of each vehicle is an element of the
    list of locations that is the value range of the visits. *)
Theorem generated_starts_in_value_range {G : Type} `{PyRandom G} :
  randbelow_in_range G ->
  exists plan,
    generate_problem = Ok plan
    /\ length (plan_visits plan) = 100%nat
    /\ length (vehicles plan) = 4%nat
    /\ Forall (fun v => start_location v ∈ plan_visits plan) (vehicles plan).
Proof.
  intros Hrange.
  destruct (generate_problem_Ok Hrange) as (plan & Hplan & Hgen).
  exists plan. split; [exact Hplan|].
  split; [exact (generated_locations _ Hgen)|].
  split; [exact (generated_vehicles _ Hgen)|].
  eapply Forall_impl; [exact (generated_starts _ Hgen)|].
  intros v [Hs _]. exact Hs.
Qed.

Lemma generated_starts_in_value_range_witness :
  exists plan,
    @generate_problem Z lcg = Ok plan
    /\ length (plan_visits plan) = 100%nat
    /\ length (vehicles plan) = 4%nat
    /\ Forall (fun v => start_location v ∈ plan_visits plan) (vehicles plan).
Proof. exact (@generated_starts_in_value_range Z lcg lcg_in_range). Defined.

(** ** Construction of a plan *)

(** C6, amended: the constructor of [RoutingPlan] checks nothing: for every
    list of vehicles and every list of locations, the empty ones included,
    it returns the plan that holds them with no score, and a plan without
    vehicles is scored 0. *)
Theorem RoutingPlan_init_checks_nothing :
  (forall vs ls, exists plan,
      RoutingPlan_init vs ls = Ok plan
      /\ vehicles plan = vs /\ plan_visits plan = ls /\ score plan = None)
  /\ (forall ls, exists plan,
        RoutingPlan_init [] ls = Ok plan /\ full_score plan = Ok 0).
Proof.
  split.
  - intros vs ls. exists (mkRoutingPlan vs ls None). repeat split.
  - intros ls. exists (mkRoutingPlan [] ls None). split; reflexivity.
Qed.

(** C6 as stated fails: a plan with no location and no vehicle is
    constructed, and so are plans with only one of the two empty. *)
Lemma empty_problem_is_constructed :
  RoutingPlan_init [] [] = Ok (mkRoutingPlan [] [] None)
  /\ RoutingPlan_init [mkVehicle bare_location []] []
     = Ok (mkRoutingPlan [mkVehicle bare_location []] [] None)
  /\ RoutingPlan_init [] [bare_location]
     = Ok (mkRoutingPlan [] [bare_location] None).
Proof. repeat split. Qed.

(** ** Incremental scoring *)

(** Replacing one element of a list replaces its image. *)
Lemma res_map_insert {A : Type} (f : A -> res Z) (xs : list A) (ys : list Z)
    (i : nat) (x' : A) (y' : Z) :
  res_map f xs = Ok ys -> (i < length xs)%nat -> f x' = Ok y' ->
  exists x y, xs !! i = Some x /\ f x = Ok y
              /\ res_map f (<[i := x']> xs) = Ok (<[i := y']> ys)
              /\ Zsum (<[i := y']> ys) = Zsum ys - y + y'.
Proof.
  revert ys i. induction xs as [|x xs IH]; intros ys i Hmap Hi Hx'.
  - simpl in Hi. lia.
  - simpl in Hmap. destruct (f x) as [y|e] eqn:Hfx; [|discriminate].
    simpl in Hmap. destruct (res_map f xs) as [ys0|e] eqn:Hxs; [|discriminate].
    injection Hmap as <-. destruct i as [|i].
    + exists x, y. simpl. rewrite Hx', Hxs. simpl.
      repeat split; try assumption. lia.
    + destruct (IH ys0 i eq_refl ltac:(simpl in Hi; lia) Hx')
        as (x0 & y0 & Hl & Hf & Hm & Hs).
      exists x0, y0. simpl. rewrite Hfx, Hm. simpl.
      repeat split; try assumption. lia.
Qed.

Lemma distance_at_insert_ne (vs : list Vehicle) (i j : nat) (v : Vehicle) :
  i <> j -> distance_at (<[i := v]> vs) j = distance_at vs j.
Proof.
  intros Hne. unfold distance_at. rewrite list_lookup_insert_ne by exact Hne.
  reflexivity.
Qed.

(** Lists of vehicles that agree outside the indices [touched] have
    distances that differ by those of the touched vehicles. *)
Lemma res_map_frame (touched : list nat) :
  NoDup touched ->
  forall (vs vs' : list Vehicle) (ws before after : list Z),
    length vs' = length vs ->
    (forall j, j ∉ touched -> vs' !! j = vs !! j) ->
    res_map total_distance vs = Ok ws ->
    res_map (distance_at vs) touched = Ok before ->
    res_map (distance_at vs') touched = Ok after ->
    exists ws', res_map total_distance vs' = Ok ws'
                /\ Zsum ws' = Zsum ws - Zsum before + Zsum after.
Proof.
  induction 1 as [|i touched Hi Hnd IH];
    intros vs vs' ws before after Hlen Hout Hws Hbefore Hafter.
  - injection Hbefore as <-. injection Hafter as <-.
    assert (vs' = vs) as ->.
    { apply list_eq. intros j. apply Hout. apply not_elem_of_nil. }
    exists ws. split; [exact Hws | simpl; lia].
  - simpl in Hbefore, Hafter.
    destruct (distance_at vs i) as [b|e] eqn:Hb; [|discriminate].
    destruct (distance_at vs' i) as [a|e] eqn:Ha; [|discriminate].
    simpl in Hbefore, Hafter.
    destruct (res_map (distance_at vs) touched) as [bs|e] eqn:Hbs;
      [|discriminate].
    destruct (res_map (distance_at vs') touched) as [as'|e] eqn:Has;
      [|discriminate].
    injection Hbefore as <-. injection Hafter as <-.
    unfold distance_at in Hb, Ha.
    destruct (vs !! i) as [v|] eqn:Hv; [|discriminate].
    destruct (vs' !! i) as [v'|] eqn:Hv'; [|discriminate].
    destruct (res_map_insert total_distance vs ws i v' a Hws
                ltac:(eapply lookup_lt_Some, Hv) Ha)
      as (v0 & b0 & Hv0 & Hb0 & Hmid & Hsum).
    assert (b0 = b) as -> by congruence.
    destruct (IH (<[i := v']> vs) vs' (<[i := a]> ws) bs as')
      as (ws' & Hws' & Hs').
    + rewrite length_insert. exact Hlen.
    + intros j Hj. destruct (decide (j = i)) as [->|Hne].
      * rewrite Hv'. symmetry. apply list_lookup_insert_eq.
        eapply lookup_lt_Some, Hv.
      * rewrite list_lookup_insert_ne by congruence.
        apply Hout. intros [->|Hin]%elem_of_cons; [congruence | contradiction].
    + exact Hmid.
    + rewrite <- Hbs. clear -Hi. induction touched as [|j touched IHt];
        [reflexivity|]. apply not_elem_of_cons in Hi as [Hne Hi].
      cbn [res_map]. rewrite (IHt Hi).
      rewrite (distance_at_insert_ne vs i j v') by congruence.
      reflexivity.
    + exact Has.
    + exists ws'. split; [exact Hws'|]. simpl. lia.
Qed.

Lemma affected_NoDup (m : Move) : NoDup (affected m).
Proof.
  destruct m as [v1 p1 v2 p2|v1 p1 v2 p2|v i j]; simpl;
    try destruct (decide (v1 = v2)); repeat constructor;
    rewrite ?list_elem_of_singleton; try apply not_elem_of_nil; congruence.
Qed.

(** A move leaves the number of vehicles and the vehicles it does not
    touch as they are. *)
Lemma apply_to_vehicles_frame (vs vs' : list Vehicle) (m : Move) :
  apply_to_vehicles vs m = Some vs' ->
  length vs' = length vs
  /\ (forall j, j ∉ affected m -> vs' !! j = vs !! j).
Proof.
  assert (forall (v1 v2 : nat) (a b : Vehicle) (j : nat),
            j ∉ (if decide (v1 = v2) then [v1] else [v1; v2]) ->
            <[v2 := b]> (<[v1 := a]> vs) !! j = vs !! j) as Htwo.
  { intros v1 v2 a b j Hj.
    assert (j <> v1 /\ j <> v2) as [H1 H2].
    { destruct (decide (v1 = v2)) as [->|Hne].
      - rewrite list_elem_of_singleton in Hj. auto.
      - rewrite !not_elem_of_cons in Hj. tauto. }
    rewrite !list_lookup_insert_ne by congruence. reflexivity. }
  destruct m as [v1 p1 v2 p2|v1 p1 v2 p2|v i j]; simpl; intros Happ.
  - destruct (vs !! v1) as [a|]; [|discriminate]. simpl in Happ.
    destruct (visits a !! p1) as [x|]; [|discriminate]. simpl in Happ.
    destruct (_ !! v2) as [b|]; [|discriminate]. simpl in Happ.
    destruct (decide _); [|discriminate]. injection Happ as <-.
    rewrite !length_insert. split; [reflexivity | apply Htwo].
  - destruct (vs !! v1) as [a|]; [|discriminate]. simpl in Happ.
    destruct (visits a !! p1) as [x|]; [|discriminate]. simpl in Happ.
    destruct (vs !! v2) as [b|]; [|discriminate]. simpl in Happ.
    destruct (visits b !! p2) as [y|]; [|discriminate]. simpl in Happ.
    destruct (_ !! v2) as [b1|]; [|discriminate]. simpl in Happ.
    destruct (decide _); [|discriminate]. injection Happ as <-.
    rewrite !length_insert. split; [reflexivity | apply Htwo].
  - destruct (vs !! v) as [a|]; [|discriminate]. simpl in Happ.
    destruct (decide _); [|discriminate]. injection Happ as <-.
    rewrite length_insert. split; [reflexivity|].
    intros k Hk. rewrite list_elem_of_singleton in Hk.
    apply list_lookup_insert_ne. congruence.
Qed.

(** A move takes its vehicles from the plan. *)
Lemma apply_to_vehicles_affected (vs vs' : list Vehicle) (m : Move) :
  apply_to_vehicles vs m = Some vs' ->
  forall i, i ∈ affected m -> is_Some (vs !! i).
Proof.
  assert (forall (v1 v2 : nat) (a b : Vehicle) (x : Vehicle) (i : nat),
            vs !! v1 = Some a -> <[v1 := x]> vs !! v2 = Some b ->
            i ∈ (if decide (v1 = v2) then [v1] else [v1; v2]) ->
            is_Some (vs !! i)) as Htwo.
  { intros v1 v2 a b x i Ha Hb Hi.
    assert (is_Some (vs !! v2)) as Hv2.
    { apply lookup_lt_is_Some. apply lookup_lt_Some in Hb.
      rewrite length_insert in Hb. exact Hb. }
    destruct (decide (v1 = v2)) as [->|Hne].
    - apply list_elem_of_singleton in Hi as ->. exact Hv2.
    - apply elem_of_cons in Hi as [->|Hi]; [eauto|].
      apply list_elem_of_singleton in Hi as ->. exact Hv2. }
  destruct m as [v1 p1 v2 p2|v1 p1 v2 p2|v i j]; simpl; intros Happ k Hk.
  - destruct (vs !! v1) as [a|] eqn:Ha; [|discriminate]. simpl in Happ.
    destruct (visits a !! p1) as [x|]; [|discriminate]. simpl in Happ.
    destruct (<[v1 := _]> vs !! v2) as [b|] eqn:Hb; [|discriminate].
    exact (Htwo v1 v2 a b _ k Ha Hb Hk).
  - destruct (vs !! v1) as [a|] eqn:Ha; [|discriminate]. simpl in Happ.
    destruct (visits a !! p1) as [x|]; [|discriminate]. simpl in Happ.
    destruct (vs !! v2) as [b|]; [|discriminate]. simpl in Happ.
    destruct (visits b !! p2) as [y|]; [|discriminate]. simpl in Happ.
    destruct (<[v1 := _]> vs !! v2) as [b1|] eqn:Hb; [|discriminate].
    exact (Htwo v1 v2 a b1 _ k Ha Hb Hk).
  - destruct (vs !! v) as [a|] eqn:Ha; [|discriminate].
    apply list_elem_of_singleton in Hk as ->. eauto.
Qed.

Lemma routed_over_with_visits (locations : list Location) (v : Vehicle)
    (route : list Location) :
  routed_over locations v -> Forall (.∈ locations) route ->
  routed_over locations (with_visits v route).
Proof. intros [Hs _] Hr. split; [exact Hs | exact Hr]. Qed.

(** A move keeps the routes within the locations they were in. *)
Lemma apply_to_vehicles_routed (locations : list Location)
    (vs vs' : list Vehicle) (m : Move) :
  Forall (routed_over locations) vs ->
  apply_to_vehicles vs m = Some vs' ->
  Forall (routed_over locations) vs'.
Proof.
  intros Hvs.
  assert (forall i v, vs !! i = Some v -> routed_over locations v) as Hat.
  { intros i v Hv. exact (Forall_lookup_1 _ _ _ _ Hvs Hv). }
  assert (forall v p x, routed_over locations v -> visits v !! p = Some x ->
                        x ∈ locations) as Hvisit.
  { intros v p x [_ Hv] Hx. exact (Forall_lookup_1 _ _ _ _ Hv Hx). }
  destruct m as [v1 p1 v2 p2|v1 p1 v2 p2|v i j]; simpl; intros Happ.
  - destruct (vs !! v1) as [a|] eqn:Ha; [|discriminate]. simpl in Happ.
    destruct (visits a !! p1) as [x|] eqn:Hx; [|discriminate]. simpl in Happ.
    destruct (<[v1 := _]> vs !! v2) as [b|] eqn:Hb; [|discriminate].
    simpl in Happ.
    destruct (decide _); [|discriminate]. injection Happ as <-.
    pose proof (Hat _ _ Ha) as Hra.
    assert (Forall (routed_over locations)
              (<[v1 := with_visits a (delete p1 (visits a))]> vs)) as Hvs1.
    { apply Forall_insert; [exact Hvs|].
      apply routed_over_with_visits; [exact Hra|].
      apply Forall_delete, Hra. }
    pose proof (Forall_lookup_1 _ _ _ _ Hvs1 Hb) as Hrb.
    apply Forall_insert; [exact Hvs1|].
    apply routed_over_with_visits; [exact Hrb|].
    unfold insert_at. apply Forall_app. split; [apply Forall_take, Hrb|].
    constructor; [exact (Hvisit _ _ _ Hra Hx) | apply Forall_drop, Hrb].
  - destruct (vs !! v1) as [a|] eqn:Ha; [|discriminate]. simpl in Happ.
    destruct (visits a !! p1) as [x|] eqn:Hx; [|discriminate]. simpl in Happ.
    destruct (vs !! v2) as [b|] eqn:Hb; [|discriminate]. simpl in Happ.
    destruct (visits b !! p2) as [y|] eqn:Hy; [|discriminate]. simpl in Happ.
    destruct (<[v1 := _]> vs !! v2) as [b1|] eqn:Hb1; [|discriminate].
    simpl in Happ.
    destruct (decide _); [|discriminate]. injection Happ as <-.
    pose proof (Hat _ _ Ha) as Hra. pose proof (Hat _ _ Hb) as Hrb.
    assert (Forall (routed_over locations)
              (<[v1 := with_visits a (<[p1 := y]> (visits a))]> vs)) as Hvs1.
    { apply Forall_insert; [exact Hvs|].
      apply routed_over_with_visits; [exact Hra|].
      apply Forall_insert; [apply Hra | exact (Hvisit _ _ _ Hrb Hy)]. }
    pose proof (Forall_lookup_1 _ _ _ _ Hvs1 Hb1) as Hrb1.
    apply Forall_insert; [exact Hvs1|].
    apply routed_over_with_visits; [exact Hrb1|].
    apply Forall_insert; [apply Hrb1 | exact (Hvisit _ _ _ Hra Hx)].
  - destruct (vs !! v) as [a|] eqn:Ha; [|discriminate]. simpl in Happ.
    destruct (decide _); [|discriminate]. injection Happ as <-.
    pose proof (Hat _ _ Ha) as Hra.
    apply Forall_insert; [exact Hvs|].
    apply routed_over_with_visits; [exact Hra|].
    unfold reverse_segment. rewrite !Forall_app, Forall_reverse.
    repeat split;
      [apply Forall_take | apply Forall_take, Forall_drop | apply Forall_drop];
      apply Hra.
Qed.

(** The distances of the vehicles at given indices are returned when the
    index is complete. *)
Lemma distances_at_return (locations : list Location) (vs : list Vehicle)
    (indices : list nat) :
  dicts_complete locations -> Forall (routed_over locations) vs ->
  (forall i, i ∈ indices -> is_Some (vs !! i)) ->
  exists ds, res_map (distance_at vs) indices = Ok ds.
Proof.
  intros Hc Hvs Hin.
  destruct (res_map_Forall (fun _ => True) (distance_at vs) indices)
    as (ds & Hds & _); [|eauto].
  apply Forall_forall. intros i Hi. destruct (Hin i Hi) as [v Hv].
  destruct (total_distance_returns locations v Hc
              (Forall_lookup_1 _ _ _ _ Hvs Hv)) as [d Hd].
  exists d. unfold distance_at. rewrite Hv. auto.
Qed.

Lemma full_score_returns (locations : list Location) (plan : RoutingPlan) :
  dicts_complete locations ->
  Forall (routed_over locations) (vehicles plan) ->
  exists x, full_score plan = Ok x.
Proof.
  intros Hc Hvs.
  destruct (full_score_Forall (fun _ => True) plan) as (ds & Hs & _); [|eauto].
  eapply Forall_impl; [exact Hvs|]. intros v Hv.
  destruct (total_distance_returns locations v Hc Hv) as [d Hd]. eauto.
Qed.

(** The identity of incremental scoring, whenever the score and the delta
    are returned. *)
Lemma delta_score_sound (s s' : RoutingPlan) (m : Move) (x d : Z) :
  apply_move s m = Some s' ->
  full_score s = Ok x ->
  delta_score s m = Ok d ->
  full_score s' = Ok (x + d).
Proof.
  unfold apply_move, delta_score. intros Happ Hx Hd.
  destruct (apply_to_vehicles (vehicles s) m) as [vs'|] eqn:Hvs;
    [|discriminate].
  injection Happ as <-.
  destruct (apply_to_vehicles_frame _ _ _ Hvs) as [Hlen Hout].
  rewrite full_score_total_distance in Hx |- *. simpl.
  destruct (res_map total_distance (vehicles s)) as [ws|e] eqn:Hws;
    [|discriminate].
  injection Hx as <-.
  destruct (res_map (distance_at (vehicles s)) (affected m))
    as [before|e] eqn:Hb; [|discriminate].
  simpl in Hd.
  destruct (res_map (distance_at vs') (affected m)) as [after|e] eqn:Ha;
    [|discriminate].
  injection Hd as <-.
  destruct (res_map_frame (affected m) (affected_NoDup m) (vehicles s) vs'
              ws before after Hlen Hout Hws Hb Ha) as (ws' & -> & Hsum).
  simpl. f_equal. lia.
Qed.

(** The delta of a legal move is returned when the index is complete. *)
Lemma delta_score_returns (locations : list Location) (s s' : RoutingPlan)
    (m : Move) :
  apply_move s m = Some s' ->
  dicts_complete locations ->
  Forall (routed_over locations) (vehicles s) ->
  exists d, delta_score s m = Ok d.
Proof.
  unfold apply_move, delta_score. intros Happ Hc Hvs.
  destruct (apply_to_vehicles (vehicles s) m) as [vs'|] eqn:Hvs';
    [|discriminate].
  pose proof (apply_to_vehicles_affected _ _ _ Hvs') as Hin.
  destruct (apply_to_vehicles_frame _ _ _ Hvs') as [Hlen _].
  destruct (distances_at_return locations (vehicles s) (affected m) Hc Hvs Hin)
    as (before & ->).
  destruct (distances_at_return locations vs' (affected m) Hc) as (after & ->).
  - exact (apply_to_vehicles_routed locations _ _ m Hvs Hvs').
  - intros i Hi. apply lookup_lt_is_Some. rewrite Hlen.
    apply lookup_lt_is_Some, Hin, Hi.
  - simpl. eauto.
Qed.

(** C4: for every solution [s] and every legal move [m], with [s'] the
    solution that applying [m] gives, the full score of [s'] is the full
    score of [s] plus [delta_score s m], exactly, whenever both are
    returned; and they are returned when the routes of [s] are over
    locations whose distance mappings are complete.  [delta_score] is a
    function of [s] and [m] that sums the affected routes only. *)
Theorem delta_score_correct (s : RoutingPlan) (m : Move) :
  legal s m ->
  exists s',
    apply_move s m = Some s'
    /\ (forall x d, full_score s = Ok x -> delta_score s m = Ok d ->
                    full_score s' = Ok (x + d))
    /\ (forall locations,
          dicts_complete locations ->
          Forall (routed_over locations) (vehicles s) ->
          exists x d, full_score s = Ok x /\ delta_score s m = Ok d
                      /\ full_score s' = Ok (x + d)).
Proof.
  intros [s' Happ]. exists s'. split; [exact Happ|]. split.
  - intros x d. exact (delta_score_sound s s' m x d Happ).
  - intros locations Hc Hvs.
    destruct (full_score_returns locations s Hc Hvs) as [x Hx].
    destruct (delta_score_returns locations s s' m Happ Hc Hvs) as [d Hd].
    exists x, d. split; [exact Hx|]. split; [exact Hd|].
    exact (delta_score_sound s s' m x d Happ Hx Hd).
Qed.

Example two_routes_index : precomputed (plan_visits two_routes).
Proof.
  intros a b Ha Hb. simpl in Ha, Hb.
  repeat (apply elem_of_cons in Ha as [->|Ha]);
    try (apply not_elem_of_nil in Ha; contradiction);
    repeat (apply elem_of_cons in Hb as [->|Hb]);
    try (apply not_elem_of_nil in Hb; contradiction);
    eexists; (split; [vm_compute; reflexivity | reflexivity]).
Qed.

Example relocate_two_routes :
  apply_move two_routes (Relocate 1 0 0 1) = Some one_route.
Proof. reflexivity. Qed.

Example swap_two_routes :
  apply_move two_routes (Swap 0 0 1 0)
  = Some (mkRoutingPlan
            [mkVehicle depot_O [stop_B]; mkVehicle depot_O [stop_A]]
            [depot_O; stop_A; stop_B] None).
Proof. reflexivity. Qed.

Example reverse_one_route :
  apply_move one_route (SegmentReverse 0 0 1)
  = Some (mkRoutingPlan
            [mkVehicle depot_O [stop_B; stop_A]; mkVehicle depot_O []]
            [depot_O; stop_A; stop_B] None).
Proof. reflexivity. Qed.

Example illegal_moves :
  apply_move two_routes (Relocate 0 0 0 0) = None
  /\ apply_move two_routes (Swap 0 0 0 0) = None
  /\ apply_move two_routes (Relocate 0 1 1 0) = None
  /\ apply_move two_routes (SegmentReverse 2 0 1) = None.
Proof. repeat split. Qed.

Lemma delta_score_correct_witness :
  exists s',
    apply_move two_routes (Relocate 1 0 0 1) = Some s'
    /\ full_score two_routes = Ok (-3000)
    /\ delta_score two_routes (Relocate 1 0 0 1) = Ok 1000
    /\ full_score s' = Ok (-3000 + 1000).
Proof.
  destruct (delta_score_correct two_routes (Relocate 1 0 0 1))
    as (s' & Happ & Hsound & _).
  { exists one_route. reflexivity. }
  exists s'. split; [exact Happ|].
  split; [reflexivity|]. split; [reflexivity|].
  apply Hsound; reflexivity.
Defined.

(** ** The scenarios of section 8 *)

(** Scenario A: one vehicle starting at (0, 0) with one visit at (0, 0). *)
Example scenario_A :
  full_score (mkRoutingPlan [mkVehicle (depot 0) [depot 0]] [depot 0] None)
  = Ok 0.
Proof. reflexivity. Qed.

(** Scenario B: one vehicle at the location 0, one visit at the location 1,
    with the cost 100 between them. *)
Example scenario_B :
  let l0 := mkLocation 0 0 0 {[ 0 := 0; 1 := 100 ]} in
  let l1 := mkLocation 1 1 0 {[ 0 := 100; 1 := 0 ]} in
  distance_to l0 l1 = Ok 100
  /\ full_score (mkRoutingPlan [mkVehicle l0 [l1]] [l0; l1] None) = Ok (-200).
Proof. split; vm_compute; reflexivity. Qed.

(** * Further properties *)

(** ** The cost on the grid *)

Lemma nearest_zero_iff (n d : Z) :
  0 <= n -> nearest_to_scaled_root n d -> (d = 0 <-> n = 0).
Proof.
  intros Hn (Hd & Hup & Hlow). rewrite !Z.pow_2_r in *. split.
  - intros ->. lia.
  - intros ->. destruct Hlow as [->|Hlow]; [reflexivity|].
    destruct (Z.eq_dec d 0) as [|Hne]; [assumption|]. nia.
Qed.

Lemma nearest_bounds (n d : Z) :
  1 <= n <= 20000 -> nearest_to_scaled_root n d -> 100 <= d <= 14142.
Proof.
  intros Hn (Hd & Hup & Hlow). rewrite !Z.pow_2_r in *. split.
  - nia.
  - destruct Hlow as [->|Hlow]; [lia|]. nia.
Qed.

Lemma squared_distance_zero (a b : Location) :
  squared_distance a b = 0 <-> same_place a b.
Proof.
  unfold squared_distance, same_place. rewrite !Z.pow_2_r. split.
  - intros Hs.
    pose proof (Z.square_nonneg (latitude a - latitude b)) as Hx.
    pose proof (Z.square_nonneg (longitude a - longitude b)) as Hy.
    assert ((latitude a - latitude b) * (latitude a - latitude b) = 0)
      as Hx0 by lia.
    assert ((longitude a - longitude b) * (longitude a - longitude b) = 0)
      as Hy0 by lia.
    apply Z.mul_eq_0 in Hx0, Hy0. lia.
  - intros [-> ->]. lia.
Qed.

(** X1: between two locations with coordinates in [[0, 100]],
    [distance_to] returns 0 exactly when they are at the same place, and
    otherwise a cost between 100 and 14142. *)
Theorem distance_to_zero_iff_same_place (a b : Location) :
  in_grid a -> in_grid b ->
  exists d, distance_to a b = Ok d
            /\ (d = 0 <-> same_place a b)
            /\ (d <> 0 -> 100 <= d <= 14142).
Proof.
  intros Ha Hb. pose proof (squared_distance_grid a b Ha Hb) as Hn.
  rewrite distance_to_scaled_root.
  destruct (scaled_root_exact _ Hn) as (d & Hd & Hnear).
  exists d. split; [exact Hd|].
  pose proof (nearest_zero_iff _ d (proj1 Hn) Hnear) as Hz.
  split.
  - rewrite Hz. apply squared_distance_zero.
  - intros Hne. apply (nearest_bounds (squared_distance a b)); [|exact Hnear].
    assert (squared_distance a b <> 0) by (rewrite <- Hz; exact Hne). lia.
Qed.

Lemma distance_to_zero_iff_same_place_witness :
  exists d, distance_to (mkLocation 0 1 2 ∅) (mkLocation 1 4 6 ∅) = Ok d
            /\ (d = 0
                <-> same_place (mkLocation 0 1 2 ∅) (mkLocation 1 4 6 ∅))
            /\ (d <> 0 -> 100 <= d <= 14142).
Proof.
  apply (distance_to_zero_iff_same_place (mkLocation 0 1 2 ∅)
           (mkLocation 1 4 6 ∅)); unfold in_grid; simpl; lia.
Defined.

(** The triangle inequality of the euclidean norm, on squares: with
    [A^2 <= |u + v|^2], [|u|^2 <= B^2] and [|v|^2 <= C^2], scaled by [k],
    [A <= B + C]. *)
Lemma triangle_on_squares (x1 y1 x2 y2 k A B C : Z) :
  0 <= B -> 0 <= C ->
  A ^ 2 <= k ^ 2 * ((x1 + x2) ^ 2 + (y1 + y2) ^ 2) ->
  k ^ 2 * (x1 ^ 2 + y1 ^ 2) <= B ^ 2 ->
  k ^ 2 * (x2 ^ 2 + y2 ^ 2) <= C ^ 2 ->
  A <= B + C.
Proof.
  intros HB HC HA Hu Hv. rewrite !Z.pow_2_r in *.
  set (K := x1 * x2 + y1 * y2).
  set (U := k * k * (x1 * x1 + y1 * y1)) in *.
  set (V := k * k * (x2 * x2 + y2 * y2)) in *.
  set (W := k * k * K).
  assert (0 <= U) as HU0.
  { unfold U. pose proof (Z.square_nonneg k). pose proof (Z.square_nonneg x1).
    pose proof (Z.square_nonneg y1). apply Z.mul_nonneg_nonneg; lia. }
  assert (0 <= V) as HV0.
  { unfold V. pose proof (Z.square_nonneg k). pose proof (Z.square_nonneg x2).
    pose proof (Z.square_nonneg y2). apply Z.mul_nonneg_nonneg; lia. }
  assert (W * W <= U * V) as Hcauchy.
  { assert (U * V - W * W
            = (k * k * (x1 * y2 - x2 * y1)) * (k * k * (x1 * y2 - x2 * y1)))
      as Heq by (unfold U, V, W, K; ring).
    pose proof (Z.square_nonneg (k * k * (x1 * y2 - x2 * y1))). lia. }
  assert (U * V <= (B * B) * (C * C)) as HUV.
  { apply Z.mul_le_mono_nonneg; lia. }
  assert (W <= B * C) as HW.
  { destruct (Z_le_gt_dec W (B * C)) as [|Hgt]; [assumption|].
    exfalso. assert (0 <= B * C) by (apply Z.mul_nonneg_nonneg; lia).
    assert (B * C * (B * C) < W * W) by (apply Z.mul_lt_mono_nonneg; lia).
    assert (B * C * (B * C) = B * B * (C * C)) by ring. lia. }
  assert (k * k * ((x1 + x2) * (x1 + x2) + (y1 + y2) * (y1 + y2))
          = U + V + 2 * W) as Heq by (unfold U, V, W, K; ring).
  assert (A * A <= (B + C) * (B + C)) as Hsq.
  { assert ((B + C) * (B + C) = B * B + C * C + 2 * (B * C)) by ring. lia. }
  destruct (Z_le_gt_dec A (B + C)) as [|Hgt]; [assumption|].
  exfalso.
  assert ((B + C) * (B + C) < A * A) by (apply Z.mul_lt_mono_nonneg; lia).
  lia.
Qed.

(** X2: the triangle inequality up to the rounding: for three locations
    with coordinates in [[0, 100]], the cost from the first to the third is
    at most the sum of the costs through the second, plus 1. *)
Theorem distance_to_triangle (a b c : Location) :
  in_grid a -> in_grid b -> in_grid c ->
  exists dab dbc dac,
    distance_to a b = Ok dab /\ distance_to b c = Ok dbc
    /\ distance_to a c = Ok dac /\ dac <= dab + dbc + 1.
Proof.
  intros Ha Hb Hc. rewrite !distance_to_scaled_root.
  destruct (scaled_root_exact _ (squared_distance_grid a b Ha Hb))
    as (dab & Hab & Hdab & Huab & _).
  destruct (scaled_root_exact _ (squared_distance_grid b c Hb Hc))
    as (dbc & Hbc & Hdbc & Hubc & _).
  destruct (scaled_root_exact _ (squared_distance_grid a c Ha Hc))
    as (dac & Hac & Hdac & _ & Hlac).
  exists dab, dbc, dac. repeat (split; [assumption|]).
  destruct Hlac as [->|Hlac]; [lia|].
  enough (2 * dac - 1 <= (2 * dab + 1) + (2 * dbc + 1)) by lia.
  apply (triangle_on_squares
           (latitude a - latitude b) (longitude a - longitude b)
           (latitude b - latitude c) (longitude b - longitude c) 200);
    try lia.
  - replace (latitude a - latitude b + (latitude b - latitude c))
      with (latitude a - latitude c) by ring.
    replace (longitude a - longitude b + (longitude b - longitude c))
      with (longitude a - longitude c) by ring.
    unfold squared_distance in Hlac. lia.
  - unfold squared_distance in Huab. lia.
  - unfold squared_distance in Hubc. lia.
Qed.

Lemma distance_to_triangle_witness :
  exists dab dbc dac,
    distance_to (mkLocation 0 0 0 ∅) (mkLocation 1 1 1 ∅) = Ok dab
    /\ distance_to (mkLocation 1 1 1 ∅) (mkLocation 2 2 2 ∅) = Ok dbc
    /\ distance_to (mkLocation 0 0 0 ∅) (mkLocation 2 2 2 ∅) = Ok dac
    /\ dac <= dab + dbc + 1.
Proof.
  apply (distance_to_triangle (mkLocation 0 0 0 ∅) (mkLocation 1 1 1 ∅)
           (mkLocation 2 2 2 ∅)); unfold in_grid; simpl; lia.
Defined.

(** The bound is reached: 283 = 141 + 141 + 1. *)
Example distance_to_triangle_tight :
  distance_to (mkLocation 0 0 0 ∅) (mkLocation 1 1 1 ∅) = Ok 141
  /\ distance_to (mkLocation 1 1 1 ∅) (mkLocation 2 2 2 ∅) = Ok 141
  /\ distance_to (mkLocation 0 0 0 ∅) (mkLocation 2 2 2 ∅) = Ok 283.
Proof. repeat split; vm_compute; reflexivity. Qed.

Lemma nearest_monotone (n m dn dm : Z) :
  0 <= n <= m ->
  nearest_to_scaled_root n dn -> nearest_to_scaled_root m dm -> dn <= dm.
Proof.
  intros Hnm (Hdn & _ & Hlow) (Hdm & Hup & _). rewrite !Z.pow_2_r in *.
  destruct Hlow as [->|Hlow]; [exact Hdm|].
  destruct (Z_le_gt_dec dn dm) as [|Hgt]; [assumption|]. exfalso.
  assert ((2 * dm + 1) * (2 * dm + 1) <= (2 * dn - 1) * (2 * dn - 1)) as Hsq
    by (apply Z.mul_le_mono_nonneg; lia).
  assert ((2 * dm + 1) * (2 * dm + 1) = 4 * (dm * dm) + 4 * dm + 1) as Hodd
    by ring.
  lia.
Qed.

(** X3: between locations with coordinates in [[0, 100]], a pair that is
    not farther apart never costs more: [distance_to] is monotone in the
    euclidean distance. *)
Theorem distance_to_monotone (a b c d : Location) :
  in_grid a -> in_grid b -> in_grid c -> in_grid d ->
  squared_distance a b <= squared_distance c d ->
  exists x y, distance_to a b = Ok x /\ distance_to c d = Ok y /\ x <= y.
Proof.
  intros Ha Hb Hc Hd Hle. rewrite !distance_to_scaled_root.
  pose proof (squared_distance_grid a b Ha Hb) as Hab.
  destruct (scaled_root_exact _ Hab) as (x & Hx & Hnx).
  destruct (scaled_root_exact _ (squared_distance_grid c d Hc Hd))
    as (y & Hy & Hny).
  exists x, y. repeat (split; [assumption|]).
  apply (nearest_monotone (squared_distance a b) (squared_distance c d));
    [lia | assumption | assumption].
Qed.

Lemma distance_to_monotone_witness :
  exists x y,
    distance_to (mkLocation 0 0 0 ∅) (mkLocation 1 3 4 ∅) = Ok x
    /\ distance_to (mkLocation 0 0 0 ∅) (mkLocation 2 6 8 ∅) = Ok y
    /\ x <= y.
Proof.
  apply (distance_to_monotone (mkLocation 0 0 0 ∅) (mkLocation 1 3 4 ∅)
           (mkLocation 0 0 0 ∅) (mkLocation 2 6 8 ∅));
    unfold in_grid, squared_distance; simpl; lia.
Defined.

(** ** Results of comprehensions *)

(** A comprehension returns [ys] when every element returns its [y]. *)
Lemma res_map_Ok {A B : Type} (f : A -> res B) (xs : list A) (ys : list B) :
  res_map f xs = Ok ys <-> Forall2 (fun x y => f x = Ok y) xs ys.
Proof.
  revert ys. induction xs as [|x xs IH]; intros ys; simpl.
  - split; [intros [= <-]; constructor | intros Hf; inversion Hf; reflexivity].
  - split.
    + destruct (f x) as [y|e] eqn:Hy; [|discriminate]. simpl.
      destruct (res_map f xs) as [ys0|e] eqn:Hys; [|discriminate].
      intros [= <-]. constructor; [exact Hy | apply IH; reflexivity].
    + intros Hf. inversion Hf as [|? y ? ys0 Hy Hys]; subst.
      rewrite Hy. simpl. apply IH in Hys. rewrite Hys. reflexivity.
Qed.

Lemma res_map_app_Raise {A B : Type} (f : A -> res B) (l1 l2 : list A)
    (x : A) (ys : list B) (e : PyExc) :
  res_map f l1 = Ok ys -> f x = Raise e ->
  res_map f (l1 ++ x :: l2) = Raise e.
Proof.
  revert ys. induction l1 as [|x1 l1 IH]; intros ys Hl1 Hx; simpl.
  - rewrite Hx. reflexivity.
  - simpl in Hl1. destruct (f x1) as [y1|e1]; [|discriminate]. simpl in *.
    destruct (res_map f l1) as [ys1|e1]; [|discriminate].
    rewrite (IH ys1 eq_refl Hx). reflexivity.
Qed.

(** A comprehension raises the exception of its first element that
    raises. *)
Lemma res_map_Raise {A B : Type} (f : A -> res B) (xs : list A) (e : PyExc) :
  res_map f xs = Raise e <->
  exists l1 x l2 ys, xs = l1 ++ x :: l2 /\ res_map f l1 = Ok ys
                     /\ f x = Raise e.
Proof.
  split.
  - induction xs as [|x xs IH]; simpl; [discriminate|].
    destruct (f x) as [y|e'] eqn:Hy; simpl.
    + destruct (res_map f xs) as [ys0|e'] eqn:Hys; simpl; [discriminate|].
      intros [= ->].
      destruct (IH eq_refl) as (l1 & x' & l2 & ys & -> & Hl1 & Hx').
      exists (x :: l1), x', l2, (y :: ys). simpl. rewrite Hy, Hl1. auto.
    + intros [= ->]. exists [], x, xs, []. auto.
  - intros (l1 & x & l2 & ys & -> & Hl1 & Hx).
    exact (res_map_app_Raise f l1 l2 x ys e Hl1 Hx).
Qed.

Lemma Zsum_app (xs ys : list Z) : Zsum (xs ++ ys) = Zsum xs + Zsum ys.
Proof. induction xs as [|x xs IH]; simpl; lia. Qed.

Lemma Zsum_reverse (xs : list Z) : Zsum (reverse xs) = Zsum xs.
Proof.
  induction xs as [|x xs IH]; [reflexivity|].
  rewrite reverse_cons, Zsum_app, IH. simpl. lia.
Qed.

(** ** Errors of [total_distance] *)

Lemma edge_cost_entry (e : Location * Location) :
  edge_cost e = match edge_entry e with
                | Some d => Ok d
                | None => Raise (KeyError (id (snd e)))
                end.
Proof. reflexivity. Qed.

(** X4: [total_distance] returns exactly when every lookup of its route,
    from each stop to the next one, finds an entry; otherwise it raises
    [KeyError] with the id of the first stop whose entry is missing in the
    distance mapping of the stop before it, and nothing else. *)
Theorem total_distance_raises_first_missing (v : Vehicle) :
  ((exists d, total_distance v = Ok d)
   <-> Forall (fun e => is_Some (edge_entry e)) (edges (route_stops v)))
  /\ (forall exc, total_distance v = Raise exc ->
        exists before e after,
          edges (route_stops v) = before ++ e :: after
          /\ Forall (fun e' => is_Some (edge_entry e')) before
          /\ edge_entry e = None
          /\ exc = KeyError (id (snd e))).
Proof.
  rewrite total_distance_route_cost. unfold route_cost. split.
  - split.
    + intros [d Hd].
      destruct (res_map edge_cost _) as [cs|e] eqn:Hcs; [|discriminate].
      apply res_map_Ok in Hcs. clear Hd.
      induction Hcs as [|e c es cs He _ IH]; constructor; [|exact IH].
      rewrite edge_cost_entry in He.
      destruct (edge_entry e); [eauto | discriminate].
    + intros Hall.
      destruct (res_map_Forall (fun _ => True) edge_cost
                  (edges (route_stops v))) as (cs & -> & _); [|simpl; eauto].
      eapply Forall_impl; [exact Hall|]. intros e [d Hd].
      exists d. rewrite edge_cost_entry, Hd. auto.
  - intros exc Hr.
    destruct (res_map edge_cost _) as [cs|e0] eqn:Hcs; [discriminate|].
    injection Hr as ->.
    apply res_map_Raise in Hcs as (before & e & after & cs & Hsplit & Hb & He).
    exists before, e, after. split; [exact Hsplit|].
    rewrite edge_cost_entry in He.
    destruct (edge_entry e) eqn:Hentry; [discriminate|].
    injection He as <-. repeat split; try reflexivity.
    apply res_map_Ok in Hb. clear -Hb.
    induction Hb as [|e' c es cs He' _ IH]; constructor; [|exact IH].
    rewrite edge_cost_entry in He'.
    destruct (edge_entry e'); [eauto | discriminate].
Qed.

(** ** The edges of a route *)

Lemma edges_app (l r : list Location) (p q : Location) :
  edges (l ++ p :: q :: r) = edges (l ++ [p]) ++ (p, q) :: edges (q :: r).
Proof.
  induction l as [|a l IH]; [reflexivity|].
  destruct l as [|b l]; [reflexivity|].
  rewrite <- !app_comm_cons in *. rewrite !edges_cons, IH. reflexivity.
Qed.

Lemma edges_reverse (stops : list Location) :
  edges (reverse stops)
  = reverse ((fun e => (snd e, fst e)) <$> edges stops).
Proof.
  induction stops as [|a l IH]; [reflexivity|].
  destruct l as [|b r]; [reflexivity|].
  rewrite edges_cons, fmap_cons, (reverse_cons _ (b, a)), <- IH.
  rewrite (reverse_cons (b :: r) a), (reverse_cons r b), <- app_assoc.
  simpl app. rewrite (edges_app (reverse r) [] b a). reflexivity.
Qed.

Lemma elem_of_edges_entry (stops : list Location) (e : Location * Location) :
  e ∈ edges stops -> fst e ∈ stops /\ snd e ∈ stops.
Proof. destruct e as [a b]. apply elem_of_edges. Qed.

(** ** Reversing and extending a route *)

(** X5: when the distance mappings of the stops of a route agree in both
    directions, the route driven backwards has the same [total_distance]. *)
Theorem total_distance_reversed (v : Vehicle) (d : Z) :
  (forall a b, a ∈ route_stops v -> b ∈ route_stops v ->
     distance_dict a !! id b = distance_dict b !! id a) ->
  total_distance v = Ok d ->
  total_distance (mkVehicle (start_location v) (reverse (visits v))) = Ok d.
Proof.
  intros Hsym. rewrite !total_distance_route_cost. unfold route_cost.
  destruct (res_map edge_cost (edges (route_stops v))) as [cs|e] eqn:Hcs;
    [|discriminate].
  intros [= <-]. apply res_map_Ok in Hcs.
  assert (route_stops (mkVehicle (start_location v) (reverse (visits v)))
          = reverse (route_stops v)) as ->.
  { unfold route_stops. simpl.
    rewrite reverse_cons, reverse_app. reflexivity. }
  assert (res_map edge_cost (edges (reverse (route_stops v)))
          = Ok (reverse cs)) as ->.
  { apply res_map_Ok. rewrite edges_reverse. apply Forall2_reverse.
    apply Forall2_fmap_l.
    assert (Forall (fun e => fst e ∈ route_stops v /\ snd e ∈ route_stops v)
              (edges (route_stops v))) as Hin.
    { apply Forall_forall. intros e. apply elem_of_edges_entry. }
    clear -Hcs Hsym Hin. induction Hcs as [|e c es cs He _ IH];
      [constructor|].
    apply Forall_cons in Hin as [[Ha Hb] Hin].
    constructor; [|exact (IH Hin)].
    unfold compose, edge_cost, dict_get in He |- *. cbn [fst snd].
    rewrite (Hsym _ _ Hb Ha).
    destruct (distance_dict e.1 !! id e.2); [exact He | discriminate]. }
  simpl. rewrite Zsum_reverse. reflexivity.
Qed.

Lemma last_cons_default (a d : Location) (l : list Location) :
  List.last (a :: l) d = List.last l a.
Proof.
  revert a d. induction l as [|b l IH]; intros a d; [reflexivity|].
  change (List.last (a :: b :: l) d) with (List.last (b :: l) d).
  rewrite (IH b d), (IH b a). reflexivity.
Qed.

Lemma route_split (start : Location) (l1 l2 : list Location) :
  exists pre post,
    start :: l1 = pre ++ [stop_before start l1]
    /\ l2 ++ [start] = stop_after start l2 :: post.
Proof.
  assert (exists pre, start :: l1 = pre ++ [stop_before start l1]) as [pre Hp].
  { unfold stop_before. revert start.
    induction l1 as [|a l1 IH]; intros start.
    - exists []. reflexivity.
    - destruct (IH a) as [pre Hpre]. exists (start :: pre).
      rewrite last_cons_default. simpl app. rewrite <- Hpre. reflexivity. }
  exists pre. destruct l2 as [|b l2]; simpl; eauto.
Qed.

(** X6: putting a visit [x] into a route between two consecutive stops [p]
    and [q] changes [total_distance] by the two new legs minus the leg they
    replace. *)
Theorem total_distance_insert (start x : Location) (l1 l2 : list Location)
    (d dpx dxq dpq : Z) :
  let p := stop_before start l1 in
  let q := stop_after start l2 in
  total_distance (mkVehicle start (l1 ++ l2)) = Ok d ->
  distance_dict p !! id x = Some dpx ->
  distance_dict x !! id q = Some dxq ->
  distance_dict p !! id q = Some dpq ->
  total_distance (mkVehicle start (l1 ++ x :: l2)) = Ok (d + dpx + dxq - dpq).
Proof.
  intros p q. rewrite !total_distance_route_cost.
  unfold route_cost, route_stops. cbn [start_location visits].
  intros Hd Hpx Hxq Hpq.
  destruct (route_split start l1 l2) as (pre & post & Hpre & Hpost).
  fold p in Hpre. fold q in Hpost.
  assert (start :: (l1 ++ l2) ++ [start] = pre ++ p :: q :: post) as Hold.
  { rewrite <- app_assoc, app_comm_cons, Hpre, Hpost, <- app_assoc.
    reflexivity. }
  assert (start :: (l1 ++ x :: l2) ++ [start] = pre ++ p :: x :: q :: post)
    as Hnew.
  { rewrite <- app_assoc, app_comm_cons, Hpre. simpl app.
    rewrite Hpost, <- app_assoc. reflexivity. }
  rewrite Hold in Hd. rewrite Hnew.
  rewrite edges_app in Hd |- *. rewrite (edges_cons x q post).
  destruct (res_map edge_cost
              (edges (pre ++ [p]) ++ (p, q) :: edges (q :: post)))
    as [cs|e] eqn:Hcs; [|discriminate].
  injection Hd as <-.
  apply res_map_Ok in Hcs.
  apply Forall2_app_inv_l in Hcs as (cs1 & cs2 & H1 & H2 & ->).
  inversion H2 as [|? c ? cs3 Hc H3]; subst.
  assert (c = dpq) as ->.
  { unfold edge_cost, dict_get in Hc. simpl in Hc. rewrite Hpq in Hc.
    congruence. }
  assert (res_map edge_cost
            (edges (pre ++ [p]) ++ (p, x) :: (x, q) :: edges (q :: post))
          = Ok (cs1 ++ dpx :: dxq :: cs3)) as ->.
  { apply res_map_Ok. apply Forall2_app; [exact H1|].
    constructor; [unfold edge_cost, dict_get; simpl; rewrite Hpx; reflexivity|].
    constructor; [unfold edge_cost, dict_get; simpl; rewrite Hxq; reflexivity|].
    exact H3. }
  simpl. f_equal. rewrite !Zsum_app. simpl. lia.
Qed.

Lemma total_distance_reversed_witness :
  total_distance (mkVehicle depot_O (reverse [stop_A; stop_B])) = Ok 2000.
Proof.
  apply (total_distance_reversed (mkVehicle depot_O [stop_A; stop_B]) 2000);
    [|reflexivity].
  intros a b Ha Hb. unfold route_stops in Ha, Hb. simpl in Ha, Hb.
  repeat (apply elem_of_cons in Ha as [->|Ha]);
    try (apply not_elem_of_nil in Ha; contradiction);
    repeat (apply elem_of_cons in Hb as [->|Hb]);
    try (apply not_elem_of_nil in Hb; contradiction);
    reflexivity.
Defined.

Lemma total_distance_insert_witness :
  total_distance (mkVehicle depot_O ([stop_A] ++ stop_B :: []))
  = Ok (1000 + 500 + 1000 - 500).
Proof.
  apply (total_distance_insert depot_O stop_B [stop_A] [] 1000 500 1000 500);
    reflexivity.
Defined.

(** ** The score over the vehicles *)

Lemma Zsum_Permutation (xs ys : list Z) : xs ≡ₚ ys -> Zsum xs = Zsum ys.
Proof. induction 1; simpl; lia. Qed.

Lemma Forall2_Permutation_l {A B : Type} (P : A -> B -> Prop)
    (xs xs' : list A) (ys : list B) :
  xs ≡ₚ xs' -> Forall2 P xs ys ->
  exists ys', ys ≡ₚ ys' /\ Forall2 P xs' ys'.
Proof.
  intros Hp. revert ys.
  induction Hp as [|x xs xs' _ IH|x1 x2 xs|xs1 xs2 xs3 _ IH1 _ IH2];
    intros ys Hf.
  - inversion Hf; subst. exists []. split; constructor.
  - inversion Hf as [|? y ? ys0 Hy Hys]; subst.
    destruct (IH ys0 Hys) as (ys' & Hperm & Hf').
    exists (y :: ys').
    split; [constructor; exact Hperm | constructor; assumption].
  - inversion Hf as [|? y2 ? ys0 Hy2 Hys]; subst.
    inversion Hys as [|? y1 ? ys1 Hy1 Hys1]; subst.
    exists (y1 :: y2 :: ys1). split; [apply perm_swap|].
    repeat constructor; assumption.
  - destruct (IH1 ys Hf) as (ys2 & Hp2 & Hf2).
    destruct (IH2 ys2 Hf2) as (ys3 & Hp3 & Hf3).
    exists ys3. split; [etransitivity; eassumption | exact Hf3].
Qed.

(** X7: the score does not depend on the order of the vehicles: a plan
    with the same vehicles in another order has the same score. *)
Theorem full_score_vehicle_order (plan plan' : RoutingPlan) (x : Z) :
  vehicles plan ≡ₚ vehicles plan' ->
  full_score plan = Ok x -> full_score plan' = Ok x.
Proof.
  intros Hperm. rewrite !full_score_total_distance.
  destruct (res_map total_distance (vehicles plan)) as [ws|e] eqn:Hws;
    [|discriminate].
  intros [= <-]. apply res_map_Ok in Hws.
  destruct (Forall2_Permutation_l _ _ _ _ Hperm Hws) as (ws' & Hp & Hws').
  apply res_map_Ok in Hws'. rewrite Hws'. simpl.
  rewrite (Zsum_Permutation _ _ Hp). reflexivity.
Qed.

Lemma full_score_vehicle_order_witness :
  full_score (mkRoutingPlan
                [mkVehicle depot_O [stop_B]; mkVehicle depot_O [stop_A]]
                [] None) = Ok (-3000).
Proof.
  apply (full_score_vehicle_order two_routes); [|reflexivity].
  simpl. apply perm_swap.
Defined.


(** ** What the loops keep *)

Lemma list_get_elem_of {A : Type} (seq : list A) (i : Z) (x : A) :
  list_get seq i = Ok x -> x ∈ seq.
Proof.
  unfold list_get. destruct (_ <? 0); [discriminate|].
  destruct (seq !! _) as [y|] eqn:Hy; [|discriminate].
  intros [= <-]. eapply list_elem_of_lookup_2, Hy.
Qed.

(** A loop keeps what each of its turns keeps. *)
Lemma res_fold_invariant {A B : Type} (P : A -> Prop) (f : A -> B -> res A)
    (xs : list B) :
  (forall acc x acc', x ∈ xs -> P acc -> f acc x = Ok acc' -> P acc') ->
  forall acc acc', P acc -> res_fold f acc xs = Ok acc' -> P acc'.
Proof.
  induction xs as [|x xs IH]; intros Hstep acc acc' Hacc; simpl.
  - intros [= <-]. exact Hacc.
  - destruct (f acc x) as [acc1|e] eqn:Hf; [|discriminate]. simpl.
    apply IH.
    + intros a y a' Hy. apply Hstep. right. exact Hy.
    + apply (Hstep acc x acc1); [left | exact Hacc | exact Hf].
Qed.

(** A comprehension over the generator returns values its body returns. *)
Lemma rand_map_Forall {G : Type} `{PyRandom G} {A B : Type} (P : B -> Prop)
    (f : G -> A -> res (B * G)) (xs : list A) :
  (forall g x y g', f g x = Ok (y, g') -> P y) ->
  forall g ys g', rand_map f g xs = Ok (ys, g') -> Forall P ys.
Proof.
  intros Hf. induction xs as [|x xs IH]; intros g ys g'; simpl.
  - intros [= <- _]. constructor.
  - destruct (f g x) as [[y g1]|e] eqn:Hy; [|discriminate]. simpl.
    destruct (rand_map f g1 xs) as [[ys0 g2]|e] eqn:Hys; [|discriminate].
    simpl. intros [= <- _].
    constructor; [exact (Hf _ _ _ _ Hy) | exact (IH _ _ _ Hys)].
Qed.

Lemma new_location_no_keys {G : Type} `{PyRandom G} (g g' : G) (i : Z)
    (l : Location) :
  new_location g i = Ok (l, g') -> distance_dict l = ∅.
Proof.
  unfold new_location.
  destruct (randint g 0 100) as [[lat g1]|e]; [|discriminate]. simpl.
  destruct (randint g1 0 100) as [[lon g2]|e]; [|discriminate]. simpl.
  intros [= <- _]. reflexivity.
Qed.

Lemma set_distance_keys (n i d : Z) (l : Location) :
  0 <= i < n -> keys_below n l -> keys_below n (set_distance l i d).
Proof.
  intros Hi Hl j. unfold set_distance. simpl.
  destruct (decide (i = j)) as [<-|Hne]; [intros _; exact Hi|].
  rewrite lookup_insert_ne by exact Hne. apply Hl.
Qed.

Lemma fill_entry_keys (n : Z) (k : nat) (locations locations' : list Location)
    (i : Z) :
  0 <= i < n -> Forall (keys_below n) locations ->
  fill_entry k locations i = Ok locations' ->
  Forall (keys_below n) locations'.
Proof.
  intros Hi Hall. unfold fill_entry.
  destruct (list_get locations (Z.of_nat k)) as [location|e] eqn:Hl;
    [|discriminate]. simpl.
  destruct (list_get locations i) as [other|e]; [|discriminate]. simpl.
  destruct (distance_to location other) as [d|e]; [|discriminate]. simpl.
  intros [= <-]. apply Forall_insert; [exact Hall|].
  apply set_distance_keys; [exact Hi|].
  rewrite Forall_forall in Hall. apply Hall.
  exact (list_get_elem_of _ _ _ Hl).
Qed.

Lemma fill_distances_keys (n : Z) (locations locations' : list Location) :
  Forall (keys_below n) locations ->
  fill_distances n locations = Ok locations' ->
  Forall (keys_below n) locations'.
Proof.
  unfold fill_distances. intros Hall.
  apply (res_fold_invariant (Forall (keys_below n))); [|exact Hall].
  intros acc k acc' _ Hacc. unfold fill_location.
  apply (res_fold_invariant (Forall (keys_below n))); [|exact Hacc].
  intros acc0 i acc1 Hi%elem_of_range_inv. apply fill_entry_keys, Hi.
Qed.

(** Whatever the generator, a returned plan has no key outside the
    indices. *)
Lemma generate_problem_keys {G : Type} `{PyRandom G} (g : G)
    (plan : RoutingPlan) :
  generate_problem_from g = Ok plan ->
  Forall (keys_below 100) (plan_visits plan).
Proof.
  unfold generate_problem_from. cbv zeta.
  destruct (rand_map new_location g (range 100)) as [[ls g1]|e] eqn:Hls;
    [|discriminate]. cbn [mbind res_bind].
  destruct (fill_distances 100 ls) as [ls'|e] eqn:Hfill; [|discriminate].
  cbn [mbind res_bind].
  destruct (rand_map (new_vehicle ls') g1 (range 4)) as [[vs g2]|e];
    [|discriminate]. cbn [mbind res_bind].
  intros [= <-]. simpl.
  apply (fill_distances_keys 100 ls); [|exact Hfill].
  eapply Forall_impl.
  - apply (rand_map_Forall (fun l => distance_dict l = ∅) new_location
             (range 100)) with (g := g) (g' := g1); [|exact Hls].
    intros g0 i l g0'. apply new_location_no_keys.
  - intros l Hl i. rewrite Hl, lookup_empty. intros [? [=]].
Qed.

(** ** The generated locations and their index *)

(** X9: in the plan [generate_problem] returns, the id of every location
    is its index in the list, from 0 to 99, so that ids name locations
    uniquely, and both coordinates are in [[0, 100]]. *)
Theorem generated_ids_are_indices {G : Type} `{PyRandom G} :
  randbelow_in_range G ->
  exists plan,
    generate_problem = Ok plan
    /\ (forall k l, plan_visits plan !! k = Some l ->
          id l = Z.of_nat k /\ 0 <= latitude l <= 100
          /\ 0 <= longitude l <= 100)
    /\ (forall a b, a ∈ plan_visits plan -> b ∈ plan_visits plan ->
          id a = id b -> a = b).
Proof.
  intros randbelow_range.
  destruct (generate_problem_Ok randbelow_range) as (plan & Hplan & Hgen).
  exists plan. split; [exact Hplan|]. split.
  - intros k l Hl. destruct (generated_ids _ Hgen k l Hl) as (Hid & Hg).
    split; [exact Hid | exact Hg].
  - intros a b [ka Ha]%list_elem_of_lookup [kb Hb]%list_elem_of_lookup Hid.
    destruct (generated_ids _ Hgen ka a Ha) as (Hia & _).
    destruct (generated_ids _ Hgen kb b Hb) as (Hib & _).
    assert (ka = kb) as -> by lia. congruence.
Qed.

Lemma generated_ids_are_indices_witness :
  exists plan,
    @generate_problem Z lcg = Ok plan
    /\ (forall k l, plan_visits plan !! k = Some l ->
          id l = Z.of_nat k /\ 0 <= latitude l <= 100
          /\ 0 <= longitude l <= 100)
    /\ (forall a b, a ∈ plan_visits plan -> b ∈ plan_visits plan ->
          id a = id b -> a = b).
Proof. exact (@generated_ids_are_indices Z lcg lcg_in_range). Defined.

(** X10: in the plan [generate_problem] returns, the keys of every distance
    mapping are exactly the 100 ids, and the entry of a location under the
    id of another is what [distance_to] returns for the two: the same in
    both directions, and 0 under the location's own id. *)
Theorem generated_index_is_exact {G : Type} `{PyRandom G} :
  randbelow_in_range G ->
  exists plan,
    generate_problem = Ok plan
    /\ (forall a i, a ∈ plan_visits plan ->
          (is_Some (distance_dict a !! i) <-> 0 <= i < 100))
    /\ (forall a b, a ∈ plan_visits plan -> b ∈ plan_visits plan ->
          exists d, distance_to a b = Ok d
                    /\ distance_dict a !! id b = Some d
                    /\ distance_dict b !! id a = Some d)
    /\ (forall a, a ∈ plan_visits plan -> distance_dict a !! id a = Some 0).
Proof.
  intros randbelow_range.
  destruct (generate_problem_Ok randbelow_range) as (plan & Hplan & Hgen).
  pose proof (generate_problem_keys _ _ Hplan) as Hkeys.
  rewrite Forall_forall in Hkeys.
  exists plan. split; [exact Hplan|]. split; [|split].
  - intros a i Ha. split; [apply Hkeys, Ha|]. intros Hi.
    destruct (lookup_lt_is_Some_2 (plan_visits plan) (Z.to_nat i))
      as [b Hb].
    { rewrite (generated_locations _ Hgen). lia. }
    destruct (generated_ids _ Hgen _ _ Hb) as (Hid & _).
    destruct (generated_index _ Hgen a b Ha (list_elem_of_lookup_2 _ _ _ Hb))
      as (d & _ & Hd).
    replace i with (id b) by lia. eauto.
  - intros a b Ha Hb.
    destruct (generated_index _ Hgen a b Ha Hb) as (d & Hd & Hab).
    destruct (generated_index _ Hgen b a Hb Ha) as (d' & Hd' & Hba).
    exists d. repeat split; try assumption.
    rewrite distance_to_scaled_root, squared_distance_sym,
      <- distance_to_scaled_root, Hd in Hd'.
    congruence.
  - intros a Ha.
    destruct (generated_index _ Hgen a a Ha Ha) as (d & Hd & Haa).
    rewrite distance_to_self in Hd. congruence.
Qed.

Lemma generated_index_is_exact_witness :
  exists plan,
    @generate_problem Z lcg = Ok plan
    /\ (forall a i, a ∈ plan_visits plan ->
          (is_Some (distance_dict a !! i) <-> 0 <= i < 100))
    /\ (forall a b, a ∈ plan_visits plan -> b ∈ plan_visits plan ->
          exists d, distance_to a b = Ok d
                    /\ distance_dict a !! id b = Some d
                    /\ distance_dict b !! id a = Some d)
    /\ (forall a, a ∈ plan_visits plan -> distance_dict a !! id a = Some 0).
Proof. exact (@generated_index_is_exact Z lcg lcg_in_range). Defined.

(** X11: the plan [generate_problem] returns assigns no visit: every
    vehicle has an empty visit list, the score field is [None], and the
    full score of the plan is 0. *)
Theorem generated_plan_is_unassigned {G : Type} `{PyRandom G} :
  randbelow_in_range G ->
  exists plan,
    generate_problem = Ok plan
    /\ Forall (fun v => visits v = []) (vehicles plan)
    /\ score plan = None
    /\ full_score plan = Ok 0.
Proof.
  intros randbelow_range.
  destruct (generate_problem_Ok randbelow_range) as (plan & Hplan & Hgen).
  exists plan. split; [exact Hplan|]. split; [|split].
  - eapply Forall_impl; [exact (generated_starts _ Hgen)|].
    intros v [_ Hv]. exact Hv.
  - exact (generated_score _ Hgen).
  - exact (generated_plan_score_zero _ Hgen).
Qed.

Lemma generated_plan_is_unassigned_witness :
  exists plan,
    @generate_problem Z lcg = Ok plan
    /\ Forall (fun v => visits v = []) (vehicles plan)
    /\ score plan = None
    /\ full_score plan = Ok 0.
Proof. exact (@generated_plan_is_unassigned Z lcg lcg_in_range). Defined.

Section DrawingCalls.
Context {G : Type} `{PyRandom G}.

(** The range of [randint(0, 256)] is not empty: the call returns. *)
Lemma randint_color (g : G) :
  exists r g', randint g 0 256 = Ok (r, g')
               /\ (randbelow_in_range G -> 0 <= r <= 256).
Proof.
  unfold randint. change (0 <? 256 + 1 - 0) with true. cbv iota.
  destruct (randbelow g (256 + 1 - 0)) as [r g'] eqn:Hr.
  exists (0 + r), g'. split; [reflexivity|]. intros Hrange.
  pose proof (Hrange g (256 + 1 - 0) ltac:(lia)) as Hb.
  rewrite Hr in Hb. simpl in Hb. lia.
Qed.

Lemma draw_vehicle_Ok (g : G) (v : Vehicle) :
  exists c g', draw_vehicle 5 250 g v = Ok (vehicle_calls v c, g')
               /\ (randbelow_in_range G ->
                   0 <= fst (fst c) <= 256 /\ 0 <= snd (fst c) <= 256
                   /\ 0 <= snd c <= 256).
Proof.
  unfold draw_vehicle.
  destruct (randint_color g) as (r & g1 & Hr & Hrb). rewrite Hr.
  cbn [mbind res_bind].
  destruct (randint_color g1) as (gr & g2 & Hg & Hgb). rewrite Hg.
  cbn [mbind res_bind].
  destruct (randint_color g2) as (b & g3 & Hb & Hbb). rewrite Hb.
  cbn [mbind res_bind].
  exists (r, gr, b), g3. split; [reflexivity|]. intros Hrange. simpl. auto.
Qed.

(** The loop over the vehicles raises nothing and makes the calls of each
    vehicle in turn. *)
Lemma draw_vehicles_calls (g : G) (vs : list Vehicle) :
  exists cs,
    draw_vehicles 5 250 g vs = (concat (zip_with vehicle_calls vs cs), None)
    /\ length cs = length vs
    /\ (randbelow_in_range G ->
        Forall (fun c => 0 <= fst (fst c) <= 256 /\ 0 <= snd (fst c) <= 256
                         /\ 0 <= snd c <= 256) cs).
Proof.
  revert g. induction vs as [|v vs IH]; intros g.
  - exists []. repeat split. intros _. constructor.
  - destruct (draw_vehicle_Ok g v) as (c & g' & Hv & Hc).
    destruct (IH g') as (cs & Hvs & Hlen & Hcs).
    exists (c :: cs). cbn [draw_vehicles]. rewrite Hv, Hvs.
    repeat split; [simpl; lia|]. intros Hrange. constructor; auto.
Qed.

End DrawingCalls.

(** The lines of the calls for the visits, from the place of [l]. *)
Lemma lines_from_visits (l start : Location) (vs : list Location)
    (rest : list TurtleCmd) :
  lines_from (on_screen l) true
    (concat (draw_visit 5 250 <$> vs)
     ++ Goto (latitude start * 5 - 250) (longitude start * 5 - 250)
        :: Penup :: rest)
  = ((fun e => (on_screen (fst e), on_screen (snd e)))
       <$> edges (l :: vs ++ [start]))
    ++ lines_from (on_screen start) false rest.
Proof.
  revert l. induction vs as [|x vs IH]; intros l.
  - reflexivity.
  - change ((x :: vs) ++ [start]) with (x :: (vs ++ [start])).
    rewrite edges_cons, !fmap_cons.
    cbn [concat draw_visit app lines_from fst snd].
    change (latitude x * 5 - 250, longitude x * 5 - 250) with (on_screen x).
    rewrite (IH x). reflexivity.
Qed.

Lemma lines_from_vehicle (pos : Point) (pen : bool) (v : Vehicle)
    (c : Z * Z * Z) (rest : list TurtleCmd) :
  lines_from pos pen (vehicle_calls v c ++ rest)
  = route_lines v ++ lines_from (on_screen (start_location v)) false rest.
Proof.
  unfold vehicle_calls, route_lines, route_stops.
  rewrite <- !app_assoc. cbn [app lines_from].
  change (latitude (start_location v) * 5 - 250,
          longitude (start_location v) * 5 - 250)
    with (on_screen (start_location v)).
  apply (lines_from_visits (start_location v) (start_location v)).
Qed.

Lemma lines_from_vehicles (pos : Point) (pen : bool) (vs : list Vehicle)
    (cs : list (Z * Z * Z)) (rest : list TurtleCmd) :
  length cs = length vs ->
  (forall p b, lines_from p b rest = []) ->
  lines_from pos pen (concat (zip_with vehicle_calls vs cs) ++ rest)
  = concat (route_lines <$> vs).
Proof.
  intros Hlen Hrest. revert pos pen cs Hlen.
  induction vs as [|v vs IH]; intros pos pen [|c cs] Hlen;
    try discriminate; cbn [zip_with concat fmap list_fmap app].
  - apply Hrest.
  - rewrite <- app_assoc, lines_from_vehicle. f_equal.
    apply IH. simpl in Hlen. lia.
Qed.

Lemma dots_from_visits (pos : Point) (vs : list Location) (x y : Z)
    (rest : list TurtleCmd) :
  dots_from pos (concat (draw_visit 5 250 <$> vs) ++ Goto x y :: rest)
  = ((fun l => (on_screen l, 5)) <$> vs) ++ dots_from (x, y) rest.
Proof.
  revert pos. induction vs as [|l vs IH]; intros pos; [reflexivity|].
  rewrite !fmap_cons. cbn [concat draw_visit app dots_from].
  change (latitude l * 5 - 250, longitude l * 5 - 250) with (on_screen l).
  rewrite (IH (on_screen l)). reflexivity.
Qed.

Lemma dots_from_vehicle (pos : Point) (v : Vehicle) (c : Z * Z * Z)
    (rest : list TurtleCmd) :
  dots_from pos (vehicle_calls v c ++ rest)
  = route_dots v ++ dots_from (on_screen (start_location v)) rest.
Proof.
  unfold vehicle_calls, route_dots. rewrite <- !app_assoc.
  cbn [app dots_from].
  change (latitude (start_location v) * 5 - 250,
          longitude (start_location v) * 5 - 250)
    with (on_screen (start_location v)).
  rewrite dots_from_visits. reflexivity.
Qed.

Lemma dots_from_vehicles (pos : Point) (vs : list Vehicle)
    (cs : list (Z * Z * Z)) (rest : list TurtleCmd) :
  length cs = length vs ->
  (forall p, dots_from p rest = []) ->
  dots_from pos (concat (zip_with vehicle_calls vs cs) ++ rest)
  = concat (route_dots <$> vs).
Proof.
  intros Hlen Hrest. revert pos cs Hlen.
  induction vs as [|v vs IH]; intros pos [|c cs] Hlen;
    try discriminate; cbn [zip_with concat fmap list_fmap app].
  - apply Hrest.
  - rewrite <- app_assoc, dots_from_vehicle. f_equal.
    apply IH. simpl in Hlen. lia.
Qed.

(** The picture of a scored solution. *)
Lemma draw_scored {G : Type} `{PyRandom G} (solution : RoutingPlan)
    (points : Z) :
  score solution = Some points ->
  exists cs,
    length cs = length (vehicles solution)
    /\ @draw G _ solution
       = ([ Colormode 255; Setup 500 500;
            Title ("Routing plan - Score " +:+ pretty points) ]
          ++ concat (zip_with vehicle_calls (vehicles solution) cs)
          ++ [ Done ], None)
    /\ (randbelow_in_range G ->
        Forall (fun c => 0 <= fst (fst c) <= 256 /\ 0 <= snd (fst c) <= 256
                         /\ 0 <= snd c <= 256) cs).
Proof.
  intros Hs. unfold draw. rewrite Hs. cbv zeta.
  change (50 * 5) with 250. change (100 * 5) with 500.
  destruct (draw_vehicles_calls (Random 0) (vehicles solution))
    as (cs & Hd & Hlen & Hcs).
  exists cs. rewrite Hd. auto.
Qed.

Lemma lines_scored {G : Type} `{PyRandom G} (solution : RoutingPlan)
    (points : Z) :
  score solution = Some points ->
  lines (fst (@draw G _ solution)) = concat (route_lines <$> vehicles solution)
  /\ dots (fst (@draw G _ solution))
     = concat (route_dots <$> vehicles solution).
Proof.
  intros Hs. destruct (draw_scored solution points Hs) as (cs & Hlen & -> & _).
  cbn [fst]. unfold lines, dots. cbn [app lines_from dots_from]. split.
  - apply lines_from_vehicles; [exact Hlen | reflexivity].
  - apply dots_from_vehicles; [exact Hlen | reflexivity].
Qed.




Lemma on_screen_in_window (l : Location) : in_grid l -> in_window (on_screen l).
Proof. unfold in_grid, in_window, on_screen. simpl. lia. Qed.

(** X14: when the locations of the routes have coordinates in [[0, 100]],
    as generated, every line and every dot of the picture lies within the
    window of 500 by 500 that the script sets up. *)
Theorem draw_picture_in_window {G : Type} `{PyRandom G}
    (solution : RoutingPlan) (points : Z) :
  score solution = Some points ->
  Forall (fun v => Forall in_grid (route_stops v)) (vehicles solution) ->
  Forall (fun s => in_window (fst s) /\ in_window (snd s))
         (lines (fst (@draw G _ solution)))
  /\ Forall (fun d => in_window (fst d)) (dots (fst (@draw G _ solution))).
Proof.
  intros Hs Hgrid. destruct (lines_scored solution points Hs) as [-> ->].
  split.
  - apply Forall_concat, Forall_fmap.
    eapply Forall_impl; [exact Hgrid|]. intros v Hv. cbn beta.
    unfold route_lines. apply Forall_fmap, Forall_forall.
    intros e [Ha Hb]%elem_of_edges_entry.
    rewrite Forall_forall in Hv. cbn [compose fst snd].
    split; apply on_screen_in_window, Hv; assumption.
  - apply Forall_concat, Forall_fmap.
    eapply Forall_impl; [exact Hgrid|]. intros v Hv. cbn beta.
    unfold route_stops in Hv. apply Forall_cons in Hv as [Hstart Hv].
    apply Forall_app in Hv as [Hv _].
    unfold route_dots. constructor.
    + apply on_screen_in_window, Hstart.
    + apply Forall_fmap. eapply Forall_impl; [exact Hv|].
      intros l Hl. apply on_screen_in_window, Hl.
Qed.

Lemma draw_picture_in_window_witness :
  Forall (fun s => in_window (fst s) /\ in_window (snd s))
         (lines (fst (@draw Z lcg two_routes_solved)))
  /\ Forall (fun d => in_window (fst d))
            (dots (fst (@draw Z lcg two_routes_solved))).
Proof.
  apply (@draw_picture_in_window Z lcg two_routes_solved (-3000));
    [reflexivity|].
  repeat constructor; simpl; lia.
Defined.

Lemma largest_draw_in_range : randbelow_in_range unit.
Proof. intros g n Hn. simpl. lia. Qed.

Lemma elem_of_concat {A : Type} (x : A) (ls : list (list A)) :
  x ∈ concat ls <-> exists l, x ∈ l /\ l ∈ ls.
Proof.
  rewrite list_elem_of_In, in_concat. split.
  - intros (l & Hl & Hx). exists l. rewrite !list_elem_of_In. auto.
  - intros (l & Hx & Hl). exists l. rewrite <- !list_elem_of_In. auto.
Qed.

Lemma Color_in_vehicle_calls (v : Vehicle) (c : Z * Z * Z) (r g b : Z) :
  Color r g b ∈ vehicle_calls v c -> c = (r, g, b).
Proof.
  destruct c as [[cr cg] cb].
  unfold vehicle_calls. cbn [fst snd]. rewrite !elem_of_app, !elem_of_cons.
  intros [[[=]|[[= -> -> ->]|[[=]|[[=]|Hnil]]]]|[Hvisits|Hend]].
  - reflexivity.
  - inversion Hnil.
  - apply elem_of_concat in Hvisits as (cmds & Hin & Hcmds).
    apply list_elem_of_fmap in Hcmds as (x & -> & _).
    unfold draw_visit in Hin. rewrite !elem_of_cons in Hin.
    destruct Hin as [[=]|[[=]|Hnil]]. inversion Hnil.
  - destruct Hend as [[=]|[[=]|Hnil]]. inversion Hnil.
Qed.

Lemma largest_draw_vehicle (v : Vehicle) :
  @draw_vehicle unit largest_draw 5 250 tt v
  = Ok (vehicle_calls v (256, 256, 256), tt).
Proof. reflexivity. Qed.

(** X15: the color of a vehicle is drawn with [randint(0, 256)]: every
    component passed to [turtle.color] is between 0 and 256, and 256, one
    more than the [colormode(255)] the script sets, is passed when the
    generator draws its largest value. *)
Theorem draw_color_components :
  (forall (G : Type) (R : PyRandom G) (solution : RoutingPlan) (r g b : Z),
      randbelow_in_range G ->
      Color r g b ∈ fst (@draw G R solution) ->
      0 <= r <= 256 /\ 0 <= g <= 256 /\ 0 <= b <= 256)
  /\ randbelow_in_range unit
  /\ (forall (solution : RoutingPlan) (points : Z) (v : Vehicle)
             (vs : list Vehicle),
        score solution = Some points -> vehicles solution = v :: vs ->
        Colormode 255 ∈ fst (@draw unit largest_draw solution)
        /\ Color 256 256 256 ∈ fst (@draw unit largest_draw solution)).
Proof.
  split; [|split; [exact largest_draw_in_range|]].
  - intros G R solution r g b Hrange Hin.
    destruct (score solution) as [points|] eqn:Hs.
    + destruct (draw_scored solution points Hs) as (cs & Hlen & Hd & Hcs).
      rewrite Hd in Hin. cbn [fst] in Hin.
      rewrite !elem_of_app, !elem_of_cons in Hin.
      destruct Hin as [[[=]|[[=]|[[=]|Hnil]]]|[Hin|[[=]|Hnil]]];
        try (inversion Hnil; fail).
      apply elem_of_concat in Hin as (cmds & Hin & Hcmds).
      apply list_elem_of_lookup in Hcmds as [k Hk].
      apply lookup_zip_with_Some in Hk as (v & c & -> & _ & Hc).
      apply Color_in_vehicle_calls in Hin as ->.
      exact (Forall_lookup_1 _ _ _ _ (Hcs Hrange) Hc).
    + unfold draw in Hin. rewrite Hs in Hin. cbn [fst] in Hin.
      rewrite !elem_of_cons in Hin.
      destruct Hin as [[=]|[[=]|Hnil]]. inversion Hnil.
  - intros solution points v vs Hs Hv. unfold draw. rewrite Hs, Hv.
    cbv zeta. change (50 * 5) with 250. cbn [draw_vehicles].
    rewrite largest_draw_vehicle.
    destruct (draw_vehicles 5 250 tt vs) as [rest [e|]]; cbn [fst];
      unfold vehicle_calls; cbn [fst snd]; split; set_solver.
Qed.

Lemma draw_color_components_witness :
  Color 256 256 256 ∈ fst (@draw unit largest_draw two_routes_solved)
  /\ 0 <= 256 <= 256.
Proof.
  destruct draw_color_components as (Hbound & Hrange & Hmax).
  destruct (Hmax two_routes_solved (-3000) (mkVehicle depot_O [stop_A])
              [mkVehicle depot_O [stop_B]] eq_refl eq_refl) as [_ Hin].
  split; [exact Hin|].
  exact (proj1 (Hbound unit largest_draw two_routes_solved 256 256 256
                  Hrange Hin)).
Defined.
